(** * track-pages-read: a shallow embedding of [index.js]

    The development follows the class [TrackPagesRead]:

    - JavaScript strings are lists of UTF-16 code units, compared the way
      IndexedDB compares string keys (code unit by code unit);
    - an object store is the list of its records in ascending key order;
    - the databases of the origin form a finite map from names to
      databases, and the private fields of the class form a record that
      is threaded through every method together with that map;
    - the host (clock, location, viewport, timers) is passed explicitly. *)

From Stdlib Require Import ZArith List String Ascii Floats Sorted Permutation Lia Bool.
From stdpp Require Import gmap.
Import ListNotations.

Open Scope Z_scope.

(** ** JavaScript strings *)

Module JsString.

(** A string is its sequence of UTF-16 code units. *)
Definition jstring := list N.

(** The code units of an ASCII literal. *)
Definition js (s : string) : jstring :=
  List.map N_of_ascii (list_ascii_of_string s).

(** The one-unit string made of the code unit 0xFFFF. *)
Definition uffff : jstring := [65535%N].

(** Key comparison of IndexedDB on strings: the first differing code unit
    decides, and a proper prefix is smaller. *)
Fixpoint jcompare (a b : jstring) : comparison :=
  match a, b with
  | [], [] => Eq
  | [], _ :: _ => Lt
  | _ :: _, [] => Gt
  | x :: a', y :: b' =>
      match N.compare x y with
      | Eq => jcompare a' b'
      | c => c
      end
  end.

Definition jeqb (a b : jstring) : bool :=
  match jcompare a b with Eq => true | _ => false end.

Definition jltb (a b : jstring) : bool :=
  match jcompare a b with Lt => true | _ => false end.

Definition jleb (a b : jstring) : bool :=
  match jcompare a b with Gt => false | _ => true end.

Definition jlt (a b : jstring) : Prop := jcompare a b = Lt.

(** [s.startsWith(p)] *)
Fixpoint startsWith (p s : jstring) : bool :=
  match p, s with
  | [], _ => true
  | _ :: _, [] => false
  | x :: p', y :: s' => N.eqb x y && startsWith p' s'
  end.

End JsString.
Export JsString.

(** ** The host environment *)

(** What the methods read from the page when they run. *)
Record env := {
  location_pathname : jstring;   (* window.location.pathname *)
  now : Z                        (* Date.now() *)
}.

(** [new Date(ms)], kept as its time value. *)
Record Date := mkDate { getTime : Z }.

(** An optional string argument: omitted, [null], or a string. *)
Inductive jsarg :=
| JsUndefined
| JsNull
| JsString (s : jstring).

(** The default parameter [pathname = null] replaces [undefined] only. *)
Definition default_null (a : jsarg) : jsarg :=
  match a with
  | JsUndefined => JsNull
  | _ => a
  end.

(** [a ?? d]: the right operand is used when [a] is [null] or [undefined]. *)
Definition nullish (a : jsarg) (d : jstring) : jstring :=
  match a with
  | JsString s => s
  | JsNull | JsUndefined => d
  end.

(** Truthiness of a number read from the store: [undefined] and [0] are falsy. *)
Definition truthy (r : option Z) : bool :=
  match r with
  | Some v => negb (v =? 0)
  | None => false
  end.

(** ** IndexedDB *)

Module IndexedDB.

(** A record of an object store with out-of-line keys: key and value. *)
Definition record := (jstring * Z)%type.

(** An object store: its records, in ascending key order. *)
Definition store := list record.

(** [get]: the value of the first record with this key, else [undefined]. *)
Fixpoint store_get (k : jstring) (s : store) : option Z :=
  match s with
  | [] => None
  | (k', v) :: s' => if jeqb k k' then Some v else store_get k s'
  end.

(** [put]: the record replaces the one with the same key, or is added at
    its place in key order. *)
Fixpoint store_put (k : jstring) (v : Z) (s : store) : store :=
  match s with
  | [] => [(k, v)]
  | (k', v') :: s' =>
      match jcompare k k' with
      | Lt => (k, v) :: (k', v') :: s'
      | Eq => (k, v) :: s'
      | Gt => (k', v') :: store_put k v s'
      end
  end.

(** [IDBKeyRange.bound(lower, upper)]: both ends included. *)
Record keyrange := bound { lower : jstring; upper : jstring }.

Definition in_range (r : keyrange) (k : jstring) : bool :=
  jleb (lower r) k && jleb k (upper r).

(** A cursor: the record it is positioned on and the records still ahead
    of it in the range, in key order. *)
Record cursor := { current : record; ahead : list record }.

Definition cursor_key (c : cursor) : jstring := fst (current c).
Definition cursor_value (c : cursor) : Z := snd (current c).

(** A cursor on the first of these records, [null] when there is none. *)
Definition cursor_on (rs : list record) : option cursor :=
  match rs with
  | [] => None
  | r :: rest => Some {| current := r; ahead := rest |}
  end.

(** [store.openCursor(range)]; without a range the cursor covers the store. *)
Definition openCursor (range : option keyrange) (s : store) : option cursor :=
  match range with
  | None => cursor_on s
  | Some r => cursor_on (List.filter (fun rec => in_range r (fst rec)) s)
  end.

(** [cursor.continue()] *)
Definition continue (c : cursor) : option cursor := cursor_on (ahead c).

(** A database: its version and its object stores by name. *)
Record database := {
  version : N;
  objectStores : gmap jstring store
}.

(** An open connection, named by the database it is open on. *)
Abbreviation IDBPDatabase := jstring (only parsing).

Inductive error :=
| TypeError        (* open with version 0 *)
| VersionError     (* open with a version below the existing one *)
| NotFoundError.   (* the object store is not in the database *)

(** A settled promise. *)
Inductive result (A : Type) :=
| Ok (a : A)
| Err (e : error).
Arguments Ok {A} a.
Arguments Err {A} e.

(** [openDB(name, version, {upgrade})] of idb: the callback runs when the
    database is new or older than [version], before the open resolves. *)
Definition openDB (name : jstring) (version_ : N)
    (upgrade : gmap jstring store -> gmap jstring store)
    (dbs : gmap jstring database) : result IDBPDatabase * gmap jstring database :=
  if (version_ =? 0)%N then (Err TypeError, dbs)
  else
    match dbs !! name with
    | None =>
        (Ok name,
         <[name := {| version := version_; objectStores := upgrade ∅ |}]> dbs)
    | Some d =>
        match (version_ ?= version d)%N with
        | Lt => (Err VersionError, dbs)
        | Eq => (Ok name, dbs)
        | Gt =>
            (Ok name,
             <[name := {| version := version_;
                          objectStores := upgrade (objectStores d) |}]> dbs)
        end
    end.

(** The object store [storeName] of the database behind a connection. *)
Definition objectStore (dbs : gmap jstring database) (db : IDBPDatabase)
    (storeName : jstring) : option store :=
  match dbs !! db with
  | Some d => objectStores d !! storeName
  | None => None
  end.

(** Replaces the records of an object store. *)
Definition set_objectStore (dbs : gmap jstring database) (db : IDBPDatabase)
    (storeName : jstring) (s : store) : gmap jstring database :=
  match dbs !! db with
  | Some d =>
      <[db := {| version := version d;
                 objectStores := <[storeName := s]> (objectStores d) |}]> dbs
  | None => dbs
  end.

End IndexedDB.
Export IndexedDB.

(** ** The class [TrackPagesRead] *)

Record TrackPagesReadConfig := {
  cfg_dbName : option jstring;
  cfg_dbVersion : option N;
  cfg_storeName : option jstring
}.

(** The private fields. [db] is [#db]: [null], or the promise of the
    connection, fulfilled or rejected. *)
Record TrackPagesRead := {
  dbName : jstring;
  dbVersion : N;
  storeName : jstring;
  db : option (result IDBPDatabase)
}.

(** A tracker together with the databases of its origin. *)
Record system := {
  this : TrackPagesRead;
  indexedDB : gmap jstring database
}.

(** An asynchronous method, run to completion: it settles and leaves a
    system behind. *)
Definition Op (A : Type) : Type := system -> result A * system.

Definition ret {A} (a : A) : Op A := fun st => (Ok a, st).

Definition bind {A B} (m : Op A) (k : A -> Op B) : Op B :=
  fun st =>
    match m st with
    | (Ok a, st') => k a st'
    | (Err e, st') => (Err e, st')
    end.

Notation "'await' x <- m ;; k" := (bind m (fun x => k))
  (at level 10, x name, m at level 99, k at level 200,
   format "'[v' 'await'  x  <-  m  ;;  '/' k ']'").

(** [a || b] on an optional string: [undefined] and the empty string are falsy. *)
Definition or_string (a : option jstring) (b : jstring) : jstring :=
  match a with
  | Some (c :: s) => c :: s
  | Some [] | None => b
  end.

(** [a || b] on an optional number: [undefined] and [0] are falsy. *)
Definition or_number (a : option N) (b : N) : N :=
  match a with
  | Some (Npos p) => Npos p
  | Some N0 | None => b
  end.

(** The field initialisers. *)
Definition initial : TrackPagesRead :=
  {| dbName := js "track-pages-read";
     dbVersion := 1;
     storeName := js "paths";
     db := None |}.

Definition setConfig (config : TrackPagesReadConfig) (t : TrackPagesRead) : TrackPagesRead :=
  {| dbName := or_string (cfg_dbName config) (dbName t);
     dbVersion := or_number (cfg_dbVersion config) (dbVersion t);
     storeName := or_string (cfg_storeName config) (storeName t);
     db := db t |}.

(** [config = {}] *)
Definition empty_config : TrackPagesReadConfig :=
  {| cfg_dbName := None; cfg_dbVersion := None; cfg_storeName := None |}.

Definition constructor (config : option TrackPagesReadConfig) : TrackPagesRead :=
  setConfig (match config with Some c => c | None => empty_config end) initial.

(** The [upgrade] callback of [#openDB]. *)
Definition upgrade (storeName_ : jstring) (stores : gmap jstring store) : gmap jstring store :=
  match stores !! storeName_ with
  | Some _ => stores
  | None => <[storeName_ := []]> stores
  end.

(** [#openDB()]: the promise is created once and kept in [#db]. *)
Definition openDB_ : Op IDBPDatabase :=
  fun st =>
    let t := this st in
    match db t with
    | Some p => (p, st)
    | None =>
        let '(p, dbs) :=
          openDB (dbName t) (dbVersion t) (upgrade (storeName t)) (indexedDB st) in
        (p, {| this := {| dbName := dbName t; dbVersion := dbVersion t;
                          storeName := storeName t; db := Some p |};
               indexedDB := dbs |})
    end.

(** [this.#storeName] *)
Definition get_storeName : Op jstring := fun st => (Ok (storeName (this st)), st).

(** [db.get(storeName, key)] *)
Definition db_get (d : IDBPDatabase) (storeName_ key : jstring) : Op (option Z) :=
  fun st =>
    match objectStore (indexedDB st) d storeName_ with
    | Some s => (Ok (store_get key s), st)
    | None => (Err NotFoundError, st)
    end.

(** [db.put(storeName, value, key)] *)
Definition db_put (d : IDBPDatabase) (storeName_ : jstring) (value : Z) (key : jstring) : Op unit :=
  fun st =>
    match objectStore (indexedDB st) d storeName_ with
    | Some s =>
        (Ok tt,
         {| this := this st;
            indexedDB := set_objectStore (indexedDB st) d storeName_ (store_put key value s) |})
    | None => (Err NotFoundError, st)
    end.

(** [db.transaction(storeName, 'readonly').objectStore(storeName)] *)
Definition db_readonly_store (d : IDBPDatabase) (storeName_ : jstring) : Op store :=
  fun st =>
    match objectStore (indexedDB st) d storeName_ with
    | Some s => (Ok s, st)
    | None => (Err NotFoundError, st)
    end.

Definition isRead (pathname : jsarg) (e : env) : Op (option Date) :=
  let pathname := default_null pathname in
  await d <- openDB_ ;;
  await storeName_ <- get_storeName ;;
  await result <- db_get d storeName_ (nullish pathname (location_pathname e)) ;;
  ret (if truthy result
       then match result with Some v => Some (mkDate v) | None => None end
       else None).

Definition markAsRead (pathname : jsarg) (e : env) : Op unit :=
  let pathname := default_null pathname in
  let key := nullish pathname (location_pathname e) in
  let value := now e in
  await d <- openDB_ ;;
  await storeName_ <- get_storeName ;;
  db_put d storeName_ value key.

(** *** The two generators *)

(** What the generators yield: [{ pathname, date }]. *)
Record entry := { pathname : jstring; date : Date }.

(** [{ pathname: cursor.key, date: new Date(cursor.value) }] *)
Definition yielded (c : cursor) : entry :=
  {| pathname := cursor_key c; date := mkDate (cursor_value c) |}.

(** An async generator object between two calls of [next()]. *)
Inductive generator :=
| SuspendedStart                 (* created; the body has not run yet *)
| SuspendedYield (c : cursor)    (* stopped at [yield], on the record just yielded *)
| Completed.

(** [while (cursor !== null) { yield ...; ... }]: the test, then the yield. *)
Definition loop (c : option cursor) : option entry * generator :=
  match c with
  | Some c => (Some (yielded c), SuspendedYield c)
  | None => (None, Completed)
  end.

(** One [next()] on the generator of [getAll()]. *)
Definition getAll (g : generator) : Op (option entry * generator) :=
  match g with
  | SuspendedStart =>
      await d <- openDB_ ;;
      await storeName_ <- get_storeName ;;
      await store_ <- db_readonly_store d storeName_ ;;
      ret (loop (openCursor None store_))
  | SuspendedYield c => ret (loop (continue c))
  | Completed => ret (None, Completed)
  end.

(** One [next()] on the generator of [getAllByPath(pathname)]. *)
Definition getAllByPath (pathname : jstring) (g : generator) : Op (option entry * generator) :=
  match g with
  | SuspendedStart =>
      let range := bound pathname (pathname ++ uffff) in
      await d <- openDB_ ;;
      await storeName_ <- get_storeName ;;
      await store_ <- db_readonly_store d storeName_ ;;
      ret (loop (openCursor (Some range) store_))
  | SuspendedYield c => ret (loop (continue c))
  | Completed => ret (None, Completed)
  end.

(** [for await (const p of g) pages.push(p)], with a bound on the number
    of [next()] calls; [None] when the bound is reached first. *)
Fixpoint for_await (next : generator -> Op (option entry * generator))
    (fuel : nat) (g : generator) : Op (option (list entry)) :=
  match fuel with
  | O => ret None
  | S fuel' =>
      await r <- next g ;;
      match r with
      | (None, _) => ret (Some [])
      | (Some p, g') =>
          await pages <- for_await next fuel' g' ;;
          ret (option_map (cons p) pages)
      end
  end.

(** ** [#throttle] *)

Module Throttle.
Section Throttle.

Context {A : Type}.

(** A timer of the host: when it was set, its delay, and the arguments
    that the callback passed to [setTimeout] has in its closure. *)
Record timer := {
  timer_id : positive;
  timer_set : Z;
  timer_delay : Z;
  timer_args : A
}.

(** The variables [lastCall] and [timeout] of one [#throttle] call, and
    the timers that the host holds for it. *)
Record throttled := {
  lastCall : Z;
  timeout : option positive;
  next_id : positive;
  timers : list timer
}.

(** [let lastCall = 0; let timeout = null;] *)
Definition throttle : throttled :=
  {| lastCall := 0; timeout := None; next_id := 1; timers := [] |}.

(** The timers without timer [id]. *)
Definition remove_timer (id : positive) (ts : list timer) : list timer :=
  List.filter (fun tm => negb (Pos.eqb (timer_id tm) id)) ts.

Definition clearTimeout (id : positive) (ts : list timer) : list timer :=
  remove_timer id ts.

Inductive edge := Leading | Trailing.

(** One [func.apply(this, args)]. *)
Record execution := {
  exec_edge : edge;
  exec_time : Z;
  exec_args : A
}.

(** The returned function, called with [args] when [Date.now()] is [now_]. *)
Definition call (limit now_ : Z) (args : A) (st : throttled) : throttled * option execution :=
  let remaining := limit - (now_ - lastCall st) in
  if remaining <=? 0 then
    let ts :=
      match timeout st with
      | Some id => clearTimeout id (timers st)
      | None => timers st
      end in
    ({| lastCall := now_; timeout := None; next_id := next_id st; timers := ts |},
     Some {| exec_edge := Leading; exec_time := now_; exec_args := args |})
  else
    match timeout st with
    | None =>
        let id := next_id st in
        ({| lastCall := lastCall st;
            timeout := Some id;
            next_id := Pos.succ id;
            timers := timers st ++
              [{| timer_id := id; timer_set := now_;
                  timer_delay := remaining; timer_args := args |}] |},
         None)
    | Some _ => (st, None)
    end.

(** The host runs the callback of timer [id] when [Date.now()] is [now_];
    a timer that was cleared or has fired does nothing. *)
Definition fire (now_ : Z) (id : positive) (st : throttled) : throttled * option execution :=
  match List.find (fun tm => Pos.eqb (timer_id tm) id) (timers st) with
  | Some tm =>
      ({| lastCall := now_; timeout := None; next_id := next_id st;
          timers := remove_timer id (timers st) |},
       Some {| exec_edge := Trailing; exec_time := now_; exec_args := timer_args tm |})
  | None => (st, None)
  end.

Inductive event :=
| Call (now_ : Z) (args : A)
| Fire (now_ : Z) (id : positive).

Definition event_time (ev : event) : Z :=
  match ev with
  | Call t _ => t
  | Fire t _ => t
  end.

Definition step (limit : Z) (ev : event) (st : throttled) : throttled * option execution :=
  match ev with
  | Call t args => call limit t args st
  | Fire t id => fire t id st
  end.

(** The executions of [func] along a sequence of events, oldest first. *)
Fixpoint run (limit : Z) (evs : list event) (st : throttled) : throttled * list execution :=
  match evs with
  | [] => (st, [])
  | ev :: evs' =>
      let '(st1, x) := step limit ev st in
      let '(st2, xs) := run limit evs' st1 in
      (st2, match x with Some x => x :: xs | None => xs end)
  end.

Definition is_leading (x : execution) : bool :=
  match exec_edge x with Leading => true | Trailing => false end.

Definition is_trailing (x : execution) : bool :=
  match exec_edge x with Leading => false | Trailing => true end.

(** Leading-edge executions with a time in [[t, t + len)]. *)
Definition leading_in_window (t len : Z) (xs : list execution) : list execution :=
  List.filter (fun x => is_leading x && (t <=? exec_time x) && (exec_time x <? t + len)) xs.

End Throttle.
Arguments timer : clear implicits.
Arguments throttled : clear implicits.
Arguments execution : clear implicits.
Arguments event : clear implicits.
End Throttle.

(** ** [trackScroll] *)

(** What the callback reads from [window] and [document]. *)
Record viewport := {
  scrollY : float;
  innerHeight : float;
  scrollHeight : float
}.

Definition scrollPct (v : viewport) : float :=
  ((scrollY v + innerHeight v) / scrollHeight v)%float.

(** The arrow function given to [#throttle]. The promise of [markAsRead]
    is dropped: a rejection changes nothing else. *)
Definition scroll_callback (threshold : float) (v : viewport) (e : env) (st : system) : system :=
  if (threshold <=? scrollPct v)%float
  then snd (markAsRead JsUndefined e st)
  else st.

(** The listener that [trackScroll] registers: its parameters and the
    state of its throttle. *)
Record listener := {
  threshold : float;
  frequency : Z;
  gate : Throttle.throttled unit
}.

(** [trackScroll(threshold = 0.8, frequency = 2000)] *)
Definition trackScroll (threshold_ : option float) (frequency_ : option Z) : listener :=
  {| threshold := match threshold_ with Some x => x | None => 0x1.999999999999ap-1%float end;
     frequency := match frequency_ with Some x => x | None => 2000 end;
     gate := Throttle.throttle |}.

(** What the page does to a listener: a scroll event, or one of its timers
    coming due, each with what the page shows at that moment. *)
Inductive page_event :=
| Scroll (e : env) (v : viewport)
| TimerDue (e : env) (v : viewport) (id : positive).

Definition event_env (ev : page_event) : env :=
  match ev with
  | Scroll e _ => e
  | TimerDue e _ _ => e
  end.

Definition event_view (ev : page_event) : viewport :=
  match ev with
  | Scroll _ v => v
  | TimerDue _ v _ => v
  end.

(** What the event is to the throttle: a call of the throttled function
    with the event object, or the callback of a timer. *)
Definition gate_event (ev : page_event) : Throttle.event unit :=
  match ev with
  | Scroll e _ => Throttle.Call (now e) tt
  | TimerDue e _ id => Throttle.Fire (now e) id
  end.

Definition dispatch (l : listener) (ev : page_event) (st : system) : listener * system :=
  let '(g, x) := Throttle.step (frequency l) (gate_event ev) (gate l) in
  ({| threshold := threshold l; frequency := frequency l; gate := g |},
   match x with
   | Some _ => scroll_callback (threshold l) (event_view ev) (event_env ev) st
   | None => st
   end).

(** * Vocabulary of the properties *)

Import Throttle.

(** The invariant of an object store: keys strictly ascending. *)
Definition store_ok (s : store) : Prop := StronglySorted jlt (List.map fst s).

(** Writing records one after the other. *)
Definition put_all (ws : list record) (s : store) : store :=
  fold_left (fun s w => store_put (fst w) (snd w) s) ws s.

(** What may follow the prefix in a key of the range: nothing, a code unit
    below 0xFFFF and anything after it, or the single code unit 0xFFFF. *)
Definition below_uffff (r : jstring) : Prop :=
  r = [] \/ (exists c r', r = c :: r' /\ (c < 65535)%N) \/ r = uffff.

(** The tracker holds an open connection [d], and its object store is
    there with records [s]. *)
Definition connected (st : system) (d : IDBPDatabase) (s : store) : Prop :=
  db (this st) = Some (Ok d) /\
  objectStore (indexedDB st) d (storeName (this st)) = Some s.

(** [#openDB()] resolves with [d] and leaves [st1], where the object store
    of the tracker has records [s]. *)
Definition ready (st : system) (d : IDBPDatabase) (st1 : system) (s : store) : Prop :=
  openDB_ st = (Ok d, st1) /\
  objectStore (indexedDB st1) d (storeName (this st1)) = Some s.

(** The system with other records in the object store of the tracker. *)
Definition with_store (st : system) (d : IDBPDatabase) (s : store) : system :=
  {| this := this st;
     indexedDB := set_objectStore (indexedDB st) d (storeName (this st)) s |}.

(** A tracker just constructed, next to the databases [dbs]. *)
Definition fresh (config : option TrackPagesReadConfig) (dbs : gmap jstring database) : system :=
  {| this := constructor config; indexedDB := dbs |}.

(** The entry that a record is yielded as. *)
Definition entry_of (r : record) : entry :=
  {| pathname := fst r; date := mkDate (snd r) |}.

(** The first [n] calls of [next()]: the entries they yield, and the
    generator they leave. *)
Fixpoint take (next : generator -> Op (option entry * generator))
    (n : nat) (g : generator) : Op (list entry * generator) :=
  match n with
  | O => ret ([], g)
  | S n' =>
      await r <- next g ;;
      match r with
      | (None, g') => ret ([], g')
      | (Some p, g') =>
          await rest <- take next n' g' ;;
          ret (p :: fst rest, snd rest)
      end
  end.

(** [tracker.setConfig(config)] on the tracker of a system. *)
Definition configure (config : TrackPagesReadConfig) (st : system) : system :=
  {| this := setConfig config (this st); indexedDB := indexedDB st |}.

(** [await tracker.markAsRead(p)] for each [(p, t)] in turn, the clock
    reading [t] at the call for [p]. *)
Fixpoint mark_all (location : jstring) (ws : list record) : Op unit :=
  match ws with
  | [] => ret tt
  | (p, t) :: ws' =>
      await _u <- markAsRead (JsString p) {| location_pathname := location; now := t |} ;;
      mark_all location ws'
  end.

(** The page of the test suite, with the clock reading [t]. *)
Definition page (t : Z) : env :=
  {| location_pathname := js "/tests/index.html"; now := t |}.

(** The variable [timeout] and the timers of the host agree: no timer is
    pending, or exactly the one that [timeout] names. *)
Definition gate_ok {A} (st : throttled A) : Prop :=
  match timeout st with
  | None => timers st = []
  | Some id => exists tm, timers st = [tm] /\ timer_id tm = id
  end.

(** A call that arrives before the window has passed. *)
Definition suppressed {A} (limit : Z) (st : throttled A) (ev : event A) : Prop :=
  exists t a, ev = Call t a /\ 0 < limit - (t - lastCall st).

(** Events in the order of their times. *)
Definition in_time_order {A} (evs : list (event A)) : Prop :=
  StronglySorted (fun e1 e2 => event_time e1 <= event_time e2) evs.

(** Two leading-edge executions, the later at least [limit] after the earlier. *)
Definition apart {A} (limit : Z) (x y : execution A) : Prop :=
  is_leading x = true -> is_leading y = true -> limit <= exec_time y - exec_time x.

(** The state of a throttle of 2000 ms after a single call at 10000. *)
Definition after_first_call : throttled string :=
  {| lastCall := 10000; timeout := None; next_id := 1; timers := [] |}.

(** The event runs the callback of the listener. *)
Definition admitted (l : listener) (ev : page_event) : bool :=
  match snd (step (frequency l) (gate_event ev) (gate l)) with
  | Some _ => true
  | None => false
  end.

(** [tracker.setConfig(c)] for each [c] in turn. *)
Definition reconfigure (cs : list TrackPagesReadConfig) (t : TrackPagesRead) : TrackPagesRead :=
  fold_left (fun t c => setConfig c t) cs t.

(** The time of the last write to [k] among the writes [ws], oldest first. *)
Fixpoint last_write (k : jstring) (ws : list record) : option Z :=
  match ws with
  | [] => None
  | (k', v) :: ws' =>
      match last_write k ws' with
      | Some t => Some t
      | None => if jeqb k k' then Some v else None
      end
  end.


(** The number of calls among the events. *)
Definition calls {A} (evs : list (event A)) : nat :=
  length (List.filter (fun ev => match ev with Call _ _ => true | Fire _ _ => false end) evs).

(** The host runs no timer before its delay has passed. *)
Fixpoint punctual {A} (limit : Z) (evs : list (event A)) (st : throttled A) : Prop :=
  match evs with
  | [] => True
  | ev :: evs' =>
      match ev with
      | Call _ _ => True
      | Fire t id =>
          forall tm, In tm (timers st) -> timer_id tm = id ->
                     timer_set tm + timer_delay tm <= t
      end /\ punctual limit evs' (fst (step limit ev st))
  end.

(** The fields that a tracker is opened with are never falsy. *)
Definition configured (t : TrackPagesRead) : Prop :=
  dbName t <> [] /\ dbVersion t <> 0%N /\ storeName t <> [].

(** A field of a configuration that [||] passes over. *)
Definition falsy_string (a : option jstring) : Prop := a = None \/ a = Some [].

Definition falsy_number (a : option N) : Prop := a = None \/ a = Some 0%N.

(** Every pending timer ends with the window that [lastCall] opened. *)
Definition due_ok {A} (limit : Z) (st : throttled A) : Prop :=
  forall tm, In tm (timers st) -> timer_set tm + timer_delay tm = lastCall st + limit.

(** Two executions, the later at least [limit] after the earlier. *)
Definition spaced {A} (limit : Z) (x y : execution A) : Prop :=
  limit <= exec_time y - exec_time x.

(** The tracker [t] with [#db] set. *)
Definition opened (t : TrackPagesRead) (p : result IDBPDatabase) : TrackPagesRead :=
  {| dbName := dbName t; dbVersion := dbVersion t; storeName := storeName t; db := Some p |}.

(** The page events, one after the other, on a listener and a system. *)
Fixpoint dispatch_all (l : listener) (evs : list page_event) (st : system) : listener * system :=
  match evs with
  | [] => (l, st)
  | ev :: evs' =>
      let '(l1, st1) := dispatch l ev st in
      dispatch_all l1 evs' st1
  end.

(** * Properties *)

(** ** Order of keys *)

Section KeyOrder.

Lemma jcompare_refl a : jcompare a a = Eq.
Proof.
  induction a as [|x a IH]; simpl; [reflexivity|].
  now rewrite N.compare_refl.
Qed.

Lemma jcompare_eq a b : jcompare a b = Eq -> a = b.
Proof.
  revert b; induction a as [|x a IH]; intros [|y b]; simpl; try discriminate; auto.
  destruct (N.compare_spec x y) as [->|?|?]; try discriminate.
  intros H. now rewrite (IH _ H).
Qed.

Lemma jcompare_eq_iff a b : jcompare a b = Eq <-> a = b.
Proof.
  split; [apply jcompare_eq|intros ->; apply jcompare_refl].
Qed.

Lemma jcompare_antisym a b : jcompare b a = CompOpp (jcompare a b).
Proof.
  revert b; induction a as [|x a IH]; intros [|y b]; simpl; auto.
  rewrite (N.compare_antisym x y).
  destruct (N.compare x y); simpl; auto.
Qed.

Lemma jlt_trans a b c : jlt a b -> jlt b c -> jlt a c.
Proof.
  unfold jlt. revert b c.
  induction a as [|x a IH]; intros [|y b] [|z c]; simpl; try discriminate; auto.
  destruct (N.compare_spec x y) as [->|Hxy|Hxy]; try discriminate.
  - destruct (N.compare_spec y z) as [->|Hyz|Hyz]; try discriminate; auto.
    apply IH.
  - intros _.
    destruct (N.compare_spec y z) as [->|Hyz|Hyz]; try discriminate; intros _.
    + now apply N.compare_lt_iff in Hxy as ->.
    + assert (x < z)%N as Hxz by lia.
      now apply N.compare_lt_iff in Hxz as ->.
Qed.

Lemma jlt_irrefl a : ~ jlt a a.
Proof. unfold jlt. now rewrite jcompare_refl. Qed.

Lemma jcompare_gt_lt a b : jcompare a b = Gt -> jlt b a.
Proof.
  unfold jlt. intros H. now rewrite jcompare_antisym, H.
Qed.

Lemma jeqb_eq a b : jeqb a b = true <-> a = b.
Proof.
  unfold jeqb. rewrite <- jcompare_eq_iff.
  destruct (jcompare a b); split; congruence.
Qed.

Lemma jeqb_refl a : jeqb a a = true.
Proof. now apply jeqb_eq. Qed.

Lemma jeqb_neq a b : a <> b -> jeqb a b = false.
Proof.
  intros H. destruct (jeqb a b) eqn:E; [|reflexivity].
  now apply jeqb_eq in E.
Qed.

(** [startsWith] is "has this prefix". *)
Lemma startsWith_app p s : startsWith p s = true <-> exists r, s = p ++ r.
Proof.
  revert s; induction p as [|x p IH]; intros s; simpl.
  - split; [intros _; now exists s|reflexivity].
  - destruct s as [|y s].
    + split; [discriminate|intros [r Hr]; discriminate].
    + rewrite andb_true_iff, N.eqb_eq, IH. split.
      * intros [-> [r ->]]. now exists r.
      * intros [r Hr]. injection Hr as -> ->. split; [reflexivity|now exists r].
Qed.

(** Comparison skips a common prefix. *)
Lemma jcompare_app p a b : jcompare (p ++ a) (p ++ b) = jcompare a b.
Proof.
  induction p as [|x p IH]; simpl; [reflexivity|].
  now rewrite N.compare_refl.
Qed.

(** A string is never above its extensions. *)
Lemma jleb_app_r p r : jleb p (p ++ r) = true.
Proof.
  unfold jleb. rewrite <- (app_nil_r p) at 1. rewrite jcompare_app.
  now destruct r.
Qed.

End KeyOrder.

(** ** Object stores *)

Section Stores.

Implicit Types (s : store) (k : jstring) (v : Z).

Lemma store_get_put_eq k v s : store_get k (store_put k v s) = Some v.
Proof.
  induction s as [|[k' v'] s IH]; simpl.
  - now rewrite jeqb_refl.
  - destruct (jcompare k k') eqn:E; simpl.
    + now rewrite jeqb_refl.
    + now rewrite jeqb_refl.
    + rewrite jeqb_neq; [exact IH|].
      intros ->. now rewrite jcompare_refl in E.
Qed.

Lemma store_get_put_ne k k' v s :
  k' <> k -> store_get k' (store_put k v s) = store_get k' s.
Proof.
  intros Hne. induction s as [|[k0 v0] s IH]; simpl.
  - now rewrite jeqb_neq.
  - destruct (jcompare k k0) eqn:E; simpl.
    + apply jcompare_eq in E as <-. now rewrite !jeqb_neq.
    + now rewrite (jeqb_neq k' k).
    + now rewrite IH.
Qed.

(** The keys after a [put]: the written key and the keys before. *)
Lemma store_put_keys k v s k' :
  In k' (List.map fst (store_put k v s)) <-> k' = k \/ In k' (List.map fst s).
Proof.
  induction s as [|[k0 v0] s IH]; simpl.
  - intuition.
  - destruct (jcompare k k0) eqn:E; simpl.
    + apply jcompare_eq in E as <-. intuition.
    + intuition.
    + rewrite IH. intuition.
Qed.

Lemma store_put_ok k v s : store_ok s -> store_ok (store_put k v s).
Proof.
  unfold store_ok. induction s as [|[k0 v0] s IH]; simpl; intros Hs.
  - repeat constructor.
  - apply StronglySorted_inv in Hs as [Hs H0].
    destruct (jcompare k k0) eqn:E; simpl.
    + apply jcompare_eq in E as <-. now constructor.
    + constructor.
      * now constructor.
      * constructor; [exact E|].
        eapply List.Forall_impl; [|exact H0].
        intros a Ha. now apply (jlt_trans k k0 a).
    + constructor; [now apply IH|].
      apply List.Forall_forall. intros a Ha.
      apply store_put_keys in Ha as [->|Ha].
      * now apply jcompare_gt_lt.
      * rewrite List.Forall_forall in H0. now apply H0.
Qed.

(** At most one record for a key. *)
Lemma store_ok_NoDup s : store_ok s -> List.NoDup (List.map fst s).
Proof.
  unfold store_ok. induction 1 as [|a l Hl IH Ha]; constructor; auto.
  intros Hin. rewrite List.Forall_forall in Ha.
  now apply Ha, jlt_irrefl in Hin.
Qed.

(** In a well-formed store, [get] finds exactly the records of the store. *)
Lemma store_get_In k v s : store_ok s -> store_get k s = Some v <-> In (k, v) s.
Proof.
  unfold store_ok. induction s as [|[k0 v0] s IH]; simpl; intros Hs.
  - split; [discriminate|tauto].
  - apply StronglySorted_inv in Hs as [Hs H0].
    destruct (jeqb k k0) eqn:E.
    + apply jeqb_eq in E as ->. split.
      * intros [= ->]. now left.
      * intros [[= ->]|Hin]; [reflexivity|].
        rewrite List.Forall_forall in H0.
        apply (in_map fst) in Hin. now apply H0, jlt_irrefl in Hin.
    + rewrite (IH Hs). split; [tauto|].
      intros [[= -> ->]|Hin]; [|exact Hin].
      now rewrite jeqb_refl in E.
Qed.

Lemma store_get_None k s : store_get k s = None <-> ~ In k (List.map fst s).
Proof.
  induction s as [|[k0 v0] s IH]; simpl.
  - tauto.
  - destruct (jeqb k k0) eqn:E.
    + apply jeqb_eq in E as ->. split; [discriminate|tauto].
    + rewrite IH. split; [|tauto].
      intros Hn [->|Hin]; [|tauto].
      now rewrite jeqb_refl in E.
Qed.

(** A [put] under a new key adds one record and keeps the others. *)
Lemma store_put_fresh k v s :
  ~ In k (List.map fst s) -> Permutation (store_put k v s) ((k, v) :: s).
Proof.
  induction s as [|[k0 v0] s IH]; simpl; intros Hn.
  - reflexivity.
  - destruct (jcompare k k0) eqn:E.
    + apply jcompare_eq in E as ->. exfalso. apply Hn. now left.
    + reflexivity.
    + rewrite IH by tauto. apply perm_swap.
Qed.

Lemma put_all_ok ws s : store_ok s -> store_ok (put_all ws s).
Proof.
  revert s; induction ws as [|[k v] ws IH]; simpl; intros s Hs; auto.
  now apply IH, store_put_ok.
Qed.

Lemma put_all_distinct ws s :
  List.NoDup (List.map fst ws) ->
  (forall k, In k (List.map fst ws) -> ~ In k (List.map fst s)) ->
  Permutation (put_all ws s) (ws ++ s).
Proof.
  revert s; induction ws as [|[k v] ws IH]; simpl; intros s Hnd Hs.
  - reflexivity.
  - apply List.NoDup_cons_iff in Hnd as [Hk Hnd].
    rewrite IH; auto.
    + rewrite store_put_fresh by auto.
      symmetry. apply Permutation_middle.
    + intros k' Hk' Hin. apply store_put_keys in Hin as [->|Hin]; [tauto|].
      now apply (Hs k'); [right|].
Qed.

End Stores.

(** ** The range of [getAllByPath] *)

Section PrefixRange.

Lemma jleb_uffff r : jleb r uffff = true <-> below_uffff r.
Proof.
  unfold jleb, below_uffff, uffff. destruct r as [|c r]; simpl.
  - split; auto.
  - destruct (N.compare_spec c 65535) as [->|Hc|Hc].
    + destruct r; simpl; split; auto; try discriminate.
      intros [?|[(c' & r' & [= <- <-] & Hlt)|[= ]]]; try discriminate; lia.
    + split; auto. intros _. right; left. now exists c, r.
    + split; [discriminate|].
      intros [?|[(c' & r' & [= <- <-] & Hlt)|[= -> ->]]]; try discriminate; lia.
Qed.

(** A key at or above [p] and at or below an extension of [p] starts with [p]. *)
Lemma between_startsWith p q k :
  jleb p k = true -> jleb k (p ++ q) = true -> startsWith p k = true.
Proof.
  unfold jleb. revert k; induction p as [|x p IH]; intros [|y k]; simpl; auto.
  rewrite (N.compare_antisym x y).
  destruct (N.compare_spec x y) as [->|Hxy|Hxy]; simpl.
  - rewrite N.eqb_refl. simpl. apply IH.
  - intros _ H. discriminate H.
  - intros H. discriminate H.
Qed.

Lemma in_range_prefix p k :
  in_range (bound p (p ++ uffff)) k = true <->
  exists r, k = p ++ r /\ below_uffff r.
Proof.
  unfold in_range; simpl. rewrite andb_true_iff. split.
  - intros [Hlo Hhi].
    destruct (proj1 (startsWith_app p k) (between_startsWith _ _ _ Hlo Hhi)) as [r ->].
    exists r. split; [reflexivity|].
    apply jleb_uffff. unfold jleb in *. now rewrite jcompare_app in Hhi.
  - intros (r & -> & Hr). split; [apply jleb_app_r|].
    apply jleb_uffff in Hr. unfold jleb in *. now rewrite jcompare_app.
Qed.

End PrefixRange.

(** ** Connections and object stores *)

Section Connections.

Implicit Types (st : system) (d : IDBPDatabase) (s : store).

Lemma objectStore_set_eq (dbs : gmap jstring database) d n s s' :
  objectStore dbs d n = Some s ->
  objectStore (set_objectStore dbs d n s') d n = Some s'.
Proof.
  unfold objectStore, set_objectStore.
  destruct (dbs !! d) as [x|] eqn:E; [|discriminate].
  intros _. rewrite lookup_insert_eq. simpl. apply lookup_insert_eq.
Qed.

Lemma objectStore_set_ne (dbs : gmap jstring database) d n s' d' n' :
  (d', n') <> (d, n) ->
  objectStore (set_objectStore dbs d n s') d' n' = objectStore dbs d' n'.
Proof.
  unfold objectStore, set_objectStore. intros Hne.
  destruct (dbs !! d) as [x|] eqn:E; [|reflexivity].
  destruct (decide (d = d')) as [<-|Hd].
  - rewrite lookup_insert_eq, E. simpl.
    apply lookup_insert_ne. congruence.
  - now rewrite lookup_insert_ne.
Qed.

Lemma connected_ready st d s : connected st d s -> ready st d st s.
Proof.
  intros [Hdb Hs]. split; [|exact Hs].
  unfold openDB_. now rewrite Hdb.
Qed.

(** Opening changes neither the configuration nor, once open, the connection. *)
Lemma openDB__this st r st1 :
  openDB_ st = (r, st1) ->
  dbName (this st1) = dbName (this st) /\
  dbVersion (this st1) = dbVersion (this st) /\
  storeName (this st1) = storeName (this st) /\
  db (this st1) = Some r.
Proof.
  unfold openDB_. destruct (db (this st)) as [p|] eqn:E.
  - intros [= <- <-]. auto.
  - destruct (openDB _ _ _ _) as [p dbs]. intros [= <- <-]. simpl. auto.
Qed.

Lemma ready_connected st d st1 s : ready st d st1 s -> connected st1 d s.
Proof.
  intros [Ho Hs]. split; [|exact Hs].
  now apply openDB__this in Ho.
Qed.

(** Opening never changes the records of an object store that exists. *)
Lemma openDB__keeps st r st1 d' n' s0 :
  openDB_ st = (r, st1) ->
  objectStore (indexedDB st) d' n' = Some s0 ->
  objectStore (indexedDB st1) d' n' = Some s0.
Proof.
  unfold openDB_. destruct (db (this st)) as [p|].
  { now intros [= <- <-]. }
  unfold openDB.
  destruct (dbVersion (this st) =? 0)%N; [now intros [= <- <-]|].
  unfold objectStore.
  destruct (indexedDB st !! dbName (this st)) as [x|] eqn:E.
  - destruct (dbVersion (this st) ?= version x)%N; intros [= <- <-]; simpl; auto.
    destruct (decide (dbName (this st) = d')) as [<-|Hd].
    + rewrite E, lookup_insert_eq. simpl. unfold upgrade.
      destruct (objectStores x !! storeName (this st)) eqn:Es; auto.
      intros H. rewrite lookup_insert_ne; auto. congruence.
    + now rewrite lookup_insert_ne.
  - intros [= <- <-]; simpl.
    destruct (decide (dbName (this st) = d')) as [<-|Hd].
    + now rewrite E.
    + now rewrite lookup_insert_ne.
Qed.

(** The first open of a new tracker next to no database of its name
    creates the database with an empty object store. *)
Lemma fresh_ready config dbs :
  dbs !! dbName (constructor config) = None ->
  exists st1, ready (fresh config dbs) (dbName (constructor config)) st1 [].
Proof.
  intros Hnone. unfold ready, openDB_, fresh. simpl this. simpl indexedDB.
  assert (db (constructor config) = None) as -> by reflexivity.
  unfold openDB. rewrite Hnone.
  assert ((dbVersion (constructor config) =? 0)%N = false) as ->.
  { unfold constructor, setConfig, or_number. simpl.
    destruct config as [[? [[|?]|] ?]|]; reflexivity. }
  eexists. split; [reflexivity|].
  unfold objectStore. simpl. rewrite lookup_insert_eq. simpl.
  unfold upgrade. rewrite lookup_empty. apply lookup_insert_eq.
Qed.

Lemma with_store_connected st d s s' :
  connected st d s -> connected (with_store st d s') d s'.
Proof.
  intros [Hdb Hs]. split; [exact Hdb|].
  simpl. now apply objectStore_set_eq with s.
Qed.

Lemma markAsRead_ready pathname e st d st1 s :
  ready st d st1 s ->
  markAsRead pathname e st =
    (Ok tt,
     with_store st1 d
       (store_put (nullish (default_null pathname) (location_pathname e)) (now e) s)).
Proof.
  intros [Ho Hs]. unfold markAsRead, bind. rewrite Ho.
  unfold get_storeName, db_put. now rewrite Hs.
Qed.

Lemma isRead_ready pathname e st d st1 s :
  ready st d st1 s ->
  isRead pathname e st =
    (Ok (match store_get (nullish (default_null pathname) (location_pathname e)) s with
         | Some v => if v =? 0 then None else Some (mkDate v)
         | None => None
         end),
     st1).
Proof.
  intros [Ho Hs]. unfold isRead, bind. rewrite Ho.
  unfold get_storeName, db_get. rewrite Hs. unfold ret, truthy.
  destruct (store_get _ s) as [v|]; [|reflexivity].
  now destruct (v =? 0).
Qed.

(** A method that cannot reach its object store rejects and writes nothing. *)
Lemma markAsRead_rejected pathname e st d st1 :
  openDB_ st = (Ok d, st1) ->
  objectStore (indexedDB st1) d (storeName (this st1)) = None ->
  markAsRead pathname e st = (Err NotFoundError, st1).
Proof.
  intros Ho Hs. unfold markAsRead, bind. rewrite Ho.
  unfold get_storeName, db_put. now rewrite Hs.
Qed.

End Connections.

(** ** The generators *)

Section Generators.

(** Both generators run the same loop once their cursor is open. *)
Variable next : generator -> Op (option entry * generator).
Hypothesis next_yield : forall c, next (SuspendedYield c) = ret (loop (continue c)).

Lemma for_await_cursor rs : forall fuel g st st1,
  (length rs < fuel)%nat ->
  next g st = (Ok (loop (cursor_on rs)), st1) ->
  for_await next fuel g st = (Ok (Some (List.map entry_of rs)), st1).
Proof.
  induction rs as [|r rs IH]; intros [|fuel] g st st1 Hlen Hnext;
    simpl in Hlen; try lia; simpl; unfold bind; rewrite Hnext; simpl.
  - reflexivity.
  - rewrite (IH fuel _ st1 st1); [reflexivity|lia|].
    now rewrite next_yield.
Qed.

Lemma take_cursor rs : forall n g st st1,
  next g st = (Ok (loop (cursor_on rs)), st1) ->
  exists g', take next (S n) g st = (Ok (firstn (S n) (List.map entry_of rs), g'), st1).
Proof.
  induction rs as [|r rs IH]; intros n g st st1 Hnext;
    simpl; unfold bind; rewrite Hnext; simpl.
  - now eexists.
  - destruct n as [|n].
    + simpl. now eexists.
    + destruct (IH n (SuspendedYield {| current := r; ahead := rs |}) st1 st1) as [g' Hg'].
      { now rewrite next_yield. }
      rewrite Hg'. simpl. now eexists.
Qed.

End Generators.

Section GeneratorsOfTheTracker.

Lemma getAll_start st d st1 s :
  ready st d st1 s ->
  getAll SuspendedStart st = (Ok (loop (cursor_on s)), st1).
Proof.
  intros [Ho Hs]. simpl. unfold bind. rewrite Ho.
  unfold get_storeName, db_readonly_store. now rewrite Hs.
Qed.

Lemma getAllByPath_start p st d st1 s :
  ready st d st1 s ->
  getAllByPath p SuspendedStart st =
    (Ok (loop (cursor_on
           (List.filter (fun r => in_range (bound p (p ++ uffff)) (fst r)) s))), st1).
Proof.
  intros [Ho Hs]. simpl. unfold bind. rewrite Ho.
  unfold get_storeName, db_readonly_store. now rewrite Hs.
Qed.

Lemma for_await_getAll st d st1 s fuel :
  ready st d st1 s -> (length s < fuel)%nat ->
  for_await getAll fuel SuspendedStart st = (Ok (Some (List.map entry_of s)), st1).
Proof.
  intros Hr Hlen. apply for_await_cursor; auto.
  now apply getAll_start with d.
Qed.

Lemma filter_length_le {X} (f : X -> bool) (l : list X) :
  (length (List.filter f l) <= length l)%nat.
Proof.
  induction l as [|x l IH]; simpl; [lia|].
  destruct (f x); simpl; lia.
Qed.

Lemma for_await_getAllByPath p st d st1 s fuel :
  ready st d st1 s -> (length s < fuel)%nat ->
  for_await (getAllByPath p) fuel SuspendedStart st =
    (Ok (Some (List.map entry_of
                 (List.filter (fun r => in_range (bound p (p ++ uffff)) (fst r)) s))), st1).
Proof.
  intros Hr Hlen. apply for_await_cursor; auto.
  - eapply Nat.le_lt_trans; [apply filter_length_le|exact Hlen].
  - now apply getAllByPath_start with d.
Qed.

Lemma map_pathname_entry_of (s : store) :
  List.map pathname (List.map entry_of s) = List.map fst s.
Proof.
  rewrite List.map_map. reflexivity.
Qed.

Lemma map_record_entry_of (s : store) :
  List.map (fun p => (pathname p, getTime (date p))) (List.map entry_of s) = s.
Proof.
  rewrite List.map_map.
  induction s as [|[k v] s IH]; simpl; [reflexivity|].
  f_equal. exact IH.
Qed.

Lemma filter_store_ok (f : record -> bool) (s : store) :
  store_ok s -> store_ok (List.filter f s).
Proof.
  unfold store_ok. induction s as [|r s IH]; simpl; intros Hs; [constructor|].
  apply StronglySorted_inv in Hs as [Hs H0].
  destruct (f r); simpl; auto.
  constructor; auto.
  rewrite List.Forall_forall in *. intros k Hk. apply H0.
  apply List.in_map_iff in Hk as (x & <- & Hx).
  apply List.filter_In in Hx as [Hx _]. now apply List.in_map.
Qed.

Lemma mark_all_ready location ws : forall st d st1 s,
  ready st d st1 s ->
  exists st' st'',
    mark_all location ws st = (Ok tt, st') /\ ready st' d st'' (put_all ws s).
Proof.
  induction ws as [|[p t] ws IH]; intros st d st1 s Hr; simpl.
  - now exists st, st1.
  - unfold bind. rewrite (markAsRead_ready _ _ _ _ _ _ Hr). simpl.
    apply IH with (st1 := with_store st1 d (store_put p t s)).
    apply connected_ready, with_store_connected with s.
    now apply ready_connected with st.
Qed.

End GeneratorsOfTheTracker.

(** ** Reconfiguration *)

Section Reconfiguration.

(** Once [#db] holds a promise, [#openDB()] returns it and opens nothing. *)
Lemma openDB__cached st p :
  db (this st) = Some p -> openDB_ st = (p, st).
Proof.
  intros H. unfold openDB_. now rewrite H.
Qed.

Lemma configure_connected config st d s :
  connected st d s ->
  or_string (cfg_storeName config) (storeName (this st)) = storeName (this st) ->
  connected (configure config st) d s.
Proof.
  intros [Hdb Hs] Hn. split; simpl; [exact Hdb|].
  now rewrite Hn.
Qed.

(** A connected tracker that is given another [dbName] or [dbVersion]
    still writes through the connection it has. *)
Lemma markAsRead_after_setConfig config pathname e st d s :
  connected st d s ->
  or_string (cfg_storeName config) (storeName (this st)) = storeName (this st) ->
  markAsRead pathname e (configure config st) =
    (Ok tt,
     with_store (configure config st) d
       (store_put (nullish (default_null pathname) (location_pathname e)) (now e) s)).
Proof.
  intros Hc Hn. apply markAsRead_ready, connected_ready.
  now apply configure_connected.
Qed.

(** C1, as the code has it: [setConfig] leaves [#db] as it is, so a tracker
    that has opened its database keeps using that connection under a new
    [dbName]. After [markAsRead('/a')], [setConfig({dbName: 'other'})] and
    [markAsRead('/b')], no database ['other'] exists and ['/b'] is in the
    store of ['track-pages-read']. *)
Theorem setConfig_keeps_open_connection :
  (forall config t, db (setConfig config t) = db t) /\
  let st1 := snd (markAsRead (JsString (js "/a")) (page 100) (fresh None ∅)) in
  let st2 :=
    configure {| cfg_dbName := Some (js "other");
                 cfg_dbVersion := None;
                 cfg_storeName := None |} st1 in
  let st3 := snd (markAsRead (JsString (js "/b")) (page 200) st2) in
  dbName (this st2) = js "other" /\
  db (this st2) = Some (Ok (js "track-pages-read")) /\
  fst (markAsRead (JsString (js "/b")) (page 200) st2) = Ok tt /\
  indexedDB st3 !! js "other" = None /\
  objectStore (indexedDB st3) (js "track-pages-read") (js "paths") =
    Some [(js "/a", 100); (js "/b", 200)].
Proof.
  split; [reflexivity|].
  vm_compute. repeat split; reflexivity.
Qed.

End Reconfiguration.

(** ** Reading and writing one path *)

Section ReadWrite.

(** C8: when the tracker reaches its object store, [markAsRead(P)] resolves
    and the store then holds the clock reading under [P], whatever was
    there before, and what it held under every other key; no other object
    store changes, no key has two records, and opening the database on
    the way changes no record of a store that was there. *)
Theorem markAsRead_writes_one_key P e st d st1 s :
  ready st d st1 s ->
  store_ok s ->
  exists st' s',
    markAsRead (JsString P) e st = (Ok tt, st') /\
    connected st' d s' /\
    store_get P s' = Some (now e) /\
    (forall k, k <> P -> store_get k s' = store_get k s) /\
    store_ok s' /\
    List.NoDup (List.map fst s') /\
    this st' = this st1 /\
    (forall d' n', (d', n') <> (d, storeName (this st1)) ->
       objectStore (indexedDB st') d' n' = objectStore (indexedDB st1) d' n') /\
    (forall d' n' s0, objectStore (indexedDB st) d' n' = Some s0 ->
       objectStore (indexedDB st1) d' n' = Some s0).
Proof.
  intros Hr Hok.
  exists (with_store st1 d (store_put P (now e) s)), (store_put P (now e) s).
  split; [exact (markAsRead_ready (JsString P) e st d st1 s Hr)|].
  split; [apply with_store_connected with s; now apply ready_connected with st|].
  split; [apply store_get_put_eq|].
  split; [intros k Hk; now apply store_get_put_ne|].
  split; [now apply store_put_ok|].
  split; [now apply store_ok_NoDup, store_put_ok|].
  split; [reflexivity|].
  split; [intros d' n' Hne; simpl; now apply objectStore_set_ne|].
  intros d' n' s0. destruct Hr as [Ho _]. now apply openDB__keeps with (Ok d).
Qed.

Lemma markAsRead_writes_one_key_witness :
  exists st',
    markAsRead (JsString (js "/x")) (page 5) (fresh None ∅) = (Ok tt, st') /\
    fst (isRead (JsString (js "/x")) (page 6) st') = Ok (Some (mkDate 5)).
Proof.
  destruct (markAsRead_writes_one_key (js "/x") (page 5) (fresh None ∅)
              (js "track-pages-read") (snd (openDB_ (fresh None ∅))) [])
    as (st' & s' & Hm & _).
  - split; vm_compute; reflexivity.
  - constructor.
  - exists st'. split; [exact Hm|].
    rewrite (markAsRead_ready _ _ _ (js "track-pages-read")
               (snd (openDB_ (fresh None ∅))) []) in Hm
      by (split; vm_compute; reflexivity).
    injection Hm as <-. vm_compute. reflexivity.
Defined.

(** What [isRead] returns after a write that recorded a time other than 0. *)
Lemma isRead_after_markAsRead P e e' st d st1 s :
  ready st d st1 s ->
  now e <> 0 ->
  exists st',
    markAsRead (JsString P) e st = (Ok tt, st') /\
    isRead (JsString P) e' st' = (Ok (Some (mkDate (now e))), st').
Proof.
  intros Hr Hnz. eexists. split; [exact (markAsRead_ready _ _ _ _ _ _ Hr)|].
  erewrite isRead_ready.
  2:{ apply connected_ready, with_store_connected with s.
      now apply ready_connected with st. }
  simpl. rewrite store_get_put_eq.
  destruct (now e =? 0) eqn:E; [lia|reflexivity].
Qed.

(** A path without a record reads as [null]. *)
Lemma isRead_unwritten P e st d st1 s :
  ready st d st1 s ->
  ~ In P (List.map fst s) ->
  isRead (JsString P) e st = (Ok None, st1).
Proof.
  intros Hr Hn. rewrite (isRead_ready _ _ _ _ _ _ Hr). simpl.
  apply store_get_None in Hn. now rewrite Hn.
Qed.

(** The second of two writes to a path is the one that is read. *)
Lemma isRead_latest P e1 e2 e' st d st1 s :
  ready st d st1 s ->
  now e2 <> 0 ->
  exists st' st'',
    markAsRead (JsString P) e1 st = (Ok tt, st') /\
    markAsRead (JsString P) e2 st' = (Ok tt, st'') /\
    isRead (JsString P) e' st'' = (Ok (Some (mkDate (now e2))), st'').
Proof.
  intros Hr Hnz.
  assert (connected (with_store st1 d (store_put P (now e1) s)) d
            (store_put P (now e1) s)) as Hc.
  { apply with_store_connected with s. now apply ready_connected with st. }
  destruct (isRead_after_markAsRead P e2 e' _ _ _ _ (connected_ready _ _ _ Hc) Hnz)
    as (st'' & Hm & Hi).
  exists (with_store st1 d (store_put P (now e1) s)), st''.
  split; [exact (markAsRead_ready _ _ _ _ _ _ Hr)|]. auto.
Qed.

(** C6, as the code has it: a write made when [Date.now()] is 0 records 0,
    which [isRead] takes for a missing record and answers [null], while
    [getAll] yields the same record with its date. *)
Theorem isRead_null_for_time_zero :
  let st1 := snd (markAsRead (JsString (js "/p")) (page 0) (fresh None ∅)) in
  fst (markAsRead (JsString (js "/p")) (page 0) (fresh None ∅)) = Ok tt /\
  objectStore (indexedDB st1) (js "track-pages-read") (js "paths") = Some [(js "/p", 0)] /\
  fst (isRead (JsString (js "/p")) (page 1) st1) = Ok None /\
  fst (for_await getAll 2 SuspendedStart st1) =
    Ok (Some [{| pathname := js "/p"; date := mkDate 0 |}]).
Proof.
  vm_compute. repeat split; reflexivity.
Qed.

(** C10: the empty string is a key like any other. [isRead('')] looks up
    the key [''] and [markAsRead('')] writes under it, whatever the
    location of the page; [null] and a missing argument stand for that
    location, and a string never does. *)
Theorem empty_string_is_a_key e st d st1 s :
  ready st d st1 s ->
  isRead (JsString []) e st =
    (Ok (match store_get [] s with
         | Some v => if v =? 0 then None else Some (mkDate v)
         | None => None
         end), st1) /\
  markAsRead (JsString []) e st = (Ok tt, with_store st1 d (store_put [] (now e) s)) /\
  (forall x location,
     isRead (JsString x) e st =
       isRead (JsString x) {| location_pathname := location; now := now e |} st /\
     markAsRead (JsString x) e st =
       markAsRead (JsString x) {| location_pathname := location; now := now e |} st) /\
  isRead JsNull e st = isRead (JsString (location_pathname e)) e st /\
  isRead JsUndefined e st = isRead (JsString (location_pathname e)) e st /\
  markAsRead JsNull e st = markAsRead (JsString (location_pathname e)) e st /\
  markAsRead JsUndefined e st = markAsRead (JsString (location_pathname e)) e st.
Proof.
  intros Hr.
  split; [exact (isRead_ready (JsString []) e st d st1 s Hr)|].
  split; [exact (markAsRead_ready (JsString []) e st d st1 s Hr)|].
  repeat split; reflexivity.
Qed.

Lemma empty_string_is_a_key_witness :
  fst (isRead (JsString []) (page 7) (fresh None ∅)) = Ok None /\
  objectStore (indexedDB (snd (markAsRead (JsString []) (page 7) (fresh None ∅))))
    (js "track-pages-read") (js "paths") = Some [([], 7)].
Proof.
  destruct (empty_string_is_a_key (page 7) (fresh None ∅)
              (js "track-pages-read") (snd (openDB_ (fresh None ∅))) [])
    as (Hi & Hm & _).
  - split; vm_compute; reflexivity.
  - rewrite Hi, Hm. split; vm_compute; reflexivity.
Defined.

End ReadWrite.

(** ** Iteration *)

Section Iteration.

(** C7: after [markAsRead] on distinct paths, from a new tracker whose
    database does not exist yet, [getAll()] yields one entry for each
    path and no other, each with the time recorded for its path, in
    ascending key order; the first [n] calls of [next()] yield the first
    [n] of them. With no path written it yields nothing and resolves. *)
Theorem getAll_after_distinct_writes config dbs location ws :
  dbs !! dbName (constructor config) = None ->
  List.NoDup (List.map fst ws) ->
  exists st' st'' entries,
    mark_all location ws (fresh config dbs) = (Ok tt, st') /\
    for_await getAll (S (length ws)) SuspendedStart st' = (Ok (Some entries), st'') /\
    length entries = length ws /\
    Permutation (List.map (fun p => (pathname p, getTime (date p))) entries) ws /\
    StronglySorted jlt (List.map pathname entries) /\
    List.NoDup (List.map pathname entries) /\
    (forall n, exists g,
       take getAll (S n) SuspendedStart st' = (Ok (firstn (S n) entries, g), st'')).
Proof.
  intros Hnone Hnd.
  destruct (fresh_ready config dbs Hnone) as [st1 Hr].
  destruct (mark_all_ready location ws _ _ _ _ Hr) as (st' & st'' & Hm & Hr').
  assert (Permutation (put_all ws []) ws) as Hperm.
  { rewrite <- (app_nil_r ws) at 2. apply put_all_distinct; auto. }
  assert (store_ok (put_all ws [])) as Hok by (apply put_all_ok; constructor).
  exists st', st'', (List.map entry_of (put_all ws [])).
  split; [exact Hm|].
  split.
  { apply for_await_getAll with (dbName (constructor config)); auto.
    rewrite (Permutation_length Hperm). exact (le_n _). }
  split; [rewrite length_map; apply (Permutation_length Hperm)|].
  split; [now rewrite map_record_entry_of|].
  split; [now rewrite map_pathname_entry_of|].
  split; [rewrite map_pathname_entry_of; now apply store_ok_NoDup|].
  intros n. apply take_cursor; [reflexivity|].
  now apply getAll_start with (dbName (constructor config)).
Qed.

Lemma getAll_after_distinct_writes_witness :
  exists st' st'',
    mark_all (js "/tests/index.html") [(js "/y", 20); (js "/x", 10)] (fresh None ∅) =
      (Ok tt, st') /\
    for_await getAll 3 SuspendedStart st' =
      (Ok (Some [{| pathname := js "/x"; date := mkDate 10 |};
                 {| pathname := js "/y"; date := mkDate 20 |}]), st'').
Proof.
  destruct (getAll_after_distinct_writes None ∅ (js "/tests/index.html")
              [(js "/y", 20); (js "/x", 10)])
    as (st' & st'' & entries & Hm & Hf & _).
  - reflexivity.
  - repeat constructor; vm_compute; intuition discriminate.
  - exists st', st''. split; [exact Hm|].
    assert (st' = snd (mark_all (js "/tests/index.html")
                         [(js "/y", 20); (js "/x", 10)] (fresh None ∅))) as ->
      by now rewrite Hm.
    simpl length in Hf.
    assert (Ok (Some entries) =
            fst (for_await getAll 3 SuspendedStart
                   (snd (mark_all (js "/tests/index.html")
                           [(js "/y", 20); (js "/x", 10)] (fresh None ∅))))) as He
      by now rewrite Hf.
    vm_compute in He. injection He as ->. exact Hf.
Defined.

(** An empty collection: [getAll()] yields nothing and is not an error. *)
Lemma getAll_empty config dbs :
  dbs !! dbName (constructor config) = None ->
  exists st1, for_await getAll 1 SuspendedStart (fresh config dbs) = (Ok (Some []), st1).
Proof.
  intros Hnone. destruct (fresh_ready config dbs Hnone) as [st1 Hr].
  exists st1. apply (for_await_getAll _ _ _ [] 1 Hr). exact (le_n 1).
Qed.

(** C2, as the code has it: [getAllByPath(p)] yields the records with a key
    from [p] to [p] followed by the code unit 0xFFFF, in key order. These are the keys that
    start with [p] and go on with nothing, with a code unit below 0xFFFF,
    or with the single code unit 0xFFFF: the key [p] itself is among them,
    and no key that does not start with [p] is. *)
Theorem getAllByPath_yields_the_range p st d st1 s fuel :
  ready st d st1 s ->
  store_ok s ->
  (length s < fuel)%nat ->
  exists entries,
    for_await (getAllByPath p) fuel SuspendedStart st = (Ok (Some entries), st1) /\
    (forall k t,
       In {| pathname := k; date := mkDate t |} entries <->
       In (k, t) s /\ exists r, k = p ++ r /\ below_uffff r) /\
    (forall t, In (p, t) s -> In {| pathname := p; date := mkDate t |} entries) /\
    (forall x, In x entries -> startsWith p (pathname x) = true) /\
    StronglySorted jlt (List.map pathname entries).
Proof.
  intros Hr Hok Hlen.
  set (f := fun r : record => in_range (bound p (p ++ uffff)) (fst r)).
  exists (List.map entry_of (List.filter f s)).
  assert (forall k t,
            In {| pathname := k; date := mkDate t |} (List.map entry_of (List.filter f s)) <->
            In (k, t) s /\ exists r, k = p ++ r /\ below_uffff r) as Hin.
  { intros k t. rewrite List.in_map_iff. split.
    - intros ([k' t'] & [= -> ->] & Hx).
      apply List.filter_In in Hx as [Hx Hf]. split; [exact Hx|].
      now apply in_range_prefix.
    - intros [Hx Hrange]. exists (k, t). split; [reflexivity|].
      apply List.filter_In. split; [exact Hx|].
      now apply in_range_prefix. }
  split; [now apply for_await_getAllByPath with d|].
  split; [exact Hin|].
  split.
  { intros t Ht. apply Hin. split; [exact Ht|].
    exists []. split; [now rewrite app_nil_r|now left]. }
  split.
  { intros [k [t]] Hx. apply Hin in Hx as [_ (r & -> & _)]. simpl.
    apply startsWith_app. now exists r. }
  rewrite map_pathname_entry_of. now apply filter_store_ok.
Qed.

Lemma getAllByPath_yields_the_range_witness :
  let st :=
    snd (mark_all (js "/tests/index.html")
           [(js "/blog/a", 1); (js "/blog/b", 2); (js "/about", 3)] (fresh None ∅)) in
  exists entries st1,
    for_await (getAllByPath (js "/blog")) 4 SuspendedStart st = (Ok (Some entries), st1) /\
    entries = [{| pathname := js "/blog/a"; date := mkDate 1 |};
               {| pathname := js "/blog/b"; date := mkDate 2 |}].
Proof.
  intros st.
  destruct (getAllByPath_yields_the_range (js "/blog") st (js "track-pages-read") st
              [(js "/about", 3); (js "/blog/a", 1); (js "/blog/b", 2)] 4)
    as (entries & Hf & _).
  - split; vm_compute; reflexivity.
  - repeat constructor; vm_compute; reflexivity.
  - simpl. lia.
  - exists entries, st. split; [exact Hf|].
    assert (Ok (Some entries) =
            fst (for_await (getAllByPath (js "/blog")) 4 SuspendedStart st)) as He
      by now rewrite Hf.
    vm_compute in He. now injection He.
Defined.

(** C2, as the spec has it, fails on a key in which the prefix is followed
    by the code unit 0xFFFF and more: the key starts with ['/blog'], it is
    stored, and [getAllByPath('/blog')] does not yield it. *)
Lemma getAllByPath_misses_key_after_uffff :
  let key := js "/blog" ++ [65535%N; 97%N] in
  let st := snd (markAsRead (JsString key) (page 100) (fresh None ∅)) in
  startsWith (js "/blog") key = true /\
  fst (isRead (JsString key) (page 101) st) = Ok (Some (mkDate 100)) /\
  fst (for_await getAll 2 SuspendedStart st) =
    Ok (Some [{| pathname := key; date := mkDate 100 |}]) /\
  fst (for_await (getAllByPath (js "/blog")) 2 SuspendedStart st) = Ok (Some []).
Proof.
  vm_compute. repeat split; reflexivity.
Qed.

(** The example of the spec and of the test suite. *)
Example getAllByPath_blog t1 t2 t3 :
  fst (for_await (getAllByPath (js "/blog")) 4 SuspendedStart
         (snd (mark_all (js "/tests/index.html")
                 [(js "/blog/a", t1); (js "/blog/b", t2); (js "/about", t3)]
                 (fresh None ∅)))) =
  Ok (Some [{| pathname := js "/blog/a"; date := mkDate t1 |};
            {| pathname := js "/blog/b"; date := mkDate t2 |}]).
Proof.
  vm_compute. reflexivity.
Qed.

End Iteration.

(** ** The throttle *)

Section ThrottleFacts.

Context {A : Type}.
Implicit Types (st : throttled A) (ev : event A) (evs : list (event A)).

Lemma throttle_ok : gate_ok (throttle (A := A)).
Proof. reflexivity. Qed.

Lemma remove_timer_single (tm : timer A) :
  remove_timer (timer_id tm) [tm] = [].
Proof.
  unfold remove_timer. simpl. now rewrite Pos.eqb_refl.
Qed.

Lemma call_admitted limit t a st :
  gate_ok st ->
  limit - (t - lastCall st) <= 0 ->
  call limit t a st =
    ({| lastCall := t; timeout := None; next_id := next_id st; timers := [] |},
     Some {| exec_edge := Leading; exec_time := t; exec_args := a |}).
Proof.
  intros Hok Hrem. unfold call, gate_ok in *.
  destruct (limit - (t - lastCall st) <=? 0) eqn:E; [|lia].
  destruct (timeout st) as [id|].
  - destruct Hok as (tm & -> & <-). unfold clearTimeout.
    now rewrite remove_timer_single.
  - now rewrite Hok.
Qed.

Lemma call_scheduled limit t a st :
  gate_ok st ->
  timeout st = None ->
  0 < limit - (t - lastCall st) ->
  call limit t a st =
    ({| lastCall := lastCall st;
        timeout := Some (next_id st);
        next_id := Pos.succ (next_id st);
        timers := [{| timer_id := next_id st; timer_set := t;
                      timer_delay := limit - (t - lastCall st); timer_args := a |}] |},
     None).
Proof.
  intros Hok Hnone Hrem. unfold call, gate_ok in *. rewrite Hnone in *.
  destruct (limit - (t - lastCall st) <=? 0) eqn:E; [lia|].
  now rewrite Hok.
Qed.

Lemma call_ignored limit t a st id :
  timeout st = Some id ->
  0 < limit - (t - lastCall st) ->
  call limit t a st = (st, None).
Proof.
  intros Hsome Hrem. unfold call. rewrite Hsome.
  destruct (limit - (t - lastCall st) <=? 0) eqn:E; [lia|reflexivity].
Qed.

Lemma fire_pending tf (tm : timer A) st :
  timers st = [tm] ->
  fire tf (timer_id tm) st =
    ({| lastCall := tf; timeout := None; next_id := next_id st; timers := [] |},
     Some {| exec_edge := Trailing; exec_time := tf; exec_args := timer_args tm |}).
Proof.
  intros Ht. unfold fire. rewrite Ht. cbn [List.find].
  rewrite Pos.eqb_refl. now rewrite remove_timer_single.
Qed.

Lemma fire_stale tf id st :
  (forall tm, In tm (timers st) -> timer_id tm <> id) ->
  fire tf id st = (st, None).
Proof.
  intros Hno. unfold fire.
  destruct (List.find _ (timers st)) as [tm|] eqn:E; [|reflexivity].
  apply List.find_some in E as [Hin Heq].
  apply Pos.eqb_eq in Heq. now apply Hno in Hin.
Qed.

Lemma step_ok limit ev st : gate_ok st -> gate_ok (fst (step limit ev st)).
Proof.
  intros Hok. destruct ev as [t a|t id]; simpl.
  - destruct (Z.le_gt_cases (limit - (t - lastCall st)) 0) as [Hrem|Hrem].
    + now rewrite call_admitted.
    + destruct (timeout st) as [id|] eqn:E.
      * now rewrite (call_ignored _ _ _ _ id).
      * rewrite call_scheduled; auto. simpl. unfold gate_ok. simpl. eauto.
  - unfold gate_ok in Hok. destruct (timeout st) as [id'|] eqn:E.
    + destruct Hok as (tm & Ht & Hid).
      destruct (Pos.eq_dec (timer_id tm) id) as [<-|Hne].
      * now rewrite (fire_pending _ tm).
      * rewrite fire_stale.
        -- simpl. unfold gate_ok. rewrite E. eauto.
        -- rewrite Ht. intros tm' [<-|[]]. exact Hne.
    + rewrite fire_stale.
      * simpl. unfold gate_ok. now rewrite E.
      * rewrite Hok. intros tm' [].
Qed.

Lemma run_ok limit evs : forall st, gate_ok st -> gate_ok (fst (run limit evs st)).
Proof.
  induction evs as [|ev evs IH]; intros st Hok; simpl; auto.
  pose proof (step_ok limit ev st Hok) as H1.
  destruct (step limit ev st) as [st1 x]. simpl in H1.
  pose proof (IH st1 H1) as H2.
  destruct (run limit evs st1) as [st2 xs]. exact H2.
Qed.

Lemma run_app limit evs1 evs2 st :
  run limit (evs1 ++ evs2) st =
    (fst (run limit evs2 (fst (run limit evs1 st))),
     snd (run limit evs1 st) ++ snd (run limit evs2 (fst (run limit evs1 st)))).
Proof.
  revert st; induction evs1 as [|ev evs1 IH]; intros st; simpl.
  - now destruct (run limit evs2 st).
  - destruct (step limit ev st) as [st1 x]. rewrite IH.
    destruct (run limit evs1 st1) as [st2 xs]. simpl.
    now destruct x.
Qed.

(** While a timer is pending, calls inside the window change nothing. *)
Lemma run_suppressed limit st id evs :
  timeout st = Some id ->
  Forall (suppressed limit st) evs ->
  run limit evs st = (st, []).
Proof.
  intros Hsome. induction 1 as [|ev evs (t & a & -> & Hrem) _ IH]; simpl; auto.
  rewrite (call_ignored _ _ _ _ id); auto. now rewrite IH.
Qed.

(** A timer only ever comes from a call, with the time and the arguments
    of that call. *)
Lemma step_timers limit ev st tm :
  In tm (timers (fst (step limit ev st))) ->
  In tm (timers st) \/ ev = Call (timer_set tm) (timer_args tm).
Proof.
  destruct ev as [t a|t id]; simpl.
  - unfold call. destruct (limit - (t - lastCall st) <=? 0).
    + simpl. destruct (timeout st); [|auto].
      unfold clearTimeout, remove_timer. intros H.
      apply List.filter_In in H as [H _]. auto.
    + destruct (timeout st); simpl; [auto|].
      intros H. apply List.in_app_or in H as [H|[<-|[]]]; auto.
  - unfold fire. destruct (List.find _ (timers st)); simpl; [|auto].
    unfold remove_timer. intros H.
    apply List.filter_In in H as [H _]. auto.
Qed.

Lemma run_timers limit evs : forall st pre tm,
  (forall tm', In tm' (timers st) -> In (Call (timer_set tm') (timer_args tm')) pre) ->
  In tm (timers (fst (run limit evs st))) ->
  In (Call (timer_set tm) (timer_args tm)) (pre ++ evs).
Proof.
  induction evs as [|ev evs IH]; intros st pre tm Hpre; simpl.
  - rewrite app_nil_r. apply Hpre.
  - pose proof (step_timers limit ev st) as Hstep.
    destruct (step limit ev st) as [st1 x]. simpl in Hstep.
    specialize (IH st1 (pre ++ [ev]) tm).
    destruct (run limit evs st1) as [st2 xs]. simpl in *.
    intros Hin. rewrite <- List.app_assoc in IH. apply IH; auto.
    intros tm' Hin'. apply List.in_or_app.
    destruct (Hstep tm' Hin') as [H| ->]; [left; auto|right; now left].
Qed.

(** After an event, [lastCall] is the time of that event or unchanged. *)
Lemma step_lastCall limit ev st :
  lastCall (fst (step limit ev st)) = lastCall st \/
  lastCall (fst (step limit ev st)) = event_time ev.
Proof.
  destruct ev as [t a|t id]; simpl.
  - unfold call. destruct (limit - (t - lastCall st) <=? 0); simpl; auto.
    destruct (timeout st); simpl; auto.
  - unfold fire. destruct (List.find _ (timers st)); simpl; auto.
Qed.

(** What an event executes: a call executes on the leading edge, at its
    own time, and only once the window has passed. *)
Lemma step_leading limit ev st st1 x :
  step limit ev st = (st1, Some x) ->
  is_leading x = true ->
  exec_time x = event_time ev /\ lastCall st1 = event_time ev /\
  limit <= event_time ev - lastCall st.
Proof.
  destruct ev as [t a|t id]; simpl.
  - unfold call. destruct (limit - (t - lastCall st) <=? 0) eqn:E.
    + intros [= <- <-] _. simpl. repeat split; lia.
    + destruct (timeout st); intros [= ]; discriminate.
  - unfold fire. destruct (List.find _ (timers st)).
    + intros [= <- <-]. discriminate.
    + discriminate.
Qed.

(** Leading-edge executions come at least [limit] after [lastCall]. *)
Lemma run_leading_after limit evs : forall st,
  in_time_order evs ->
  (forall ev, In ev evs -> lastCall st <= event_time ev) ->
  forall x, In x (snd (run limit evs st)) -> is_leading x = true ->
  limit <= exec_time x - lastCall st.
Proof.
  induction evs as [|ev evs IH]; intros st Hord Hlast x; simpl; [tauto|].
  apply StronglySorted_inv in Hord as [Hord Hev].
  rewrite List.Forall_forall in Hev.
  pose proof (step_lastCall limit ev st) as Hl.
  pose proof (step_leading limit ev st) as Hs.
  destruct (step limit ev st) as [st1 o]. simpl in Hl.
  specialize (IH st1 Hord).
  destruct (run limit evs st1) as [st2 xs]. simpl in *.
  assert (lastCall st <= event_time ev) as H0 by (apply Hlast; now left).
  assert (forall ev', In ev' evs -> lastCall st1 <= event_time ev') as H1.
  { intros ev' Hin. specialize (Hev ev' Hin). specialize (Hlast ev' (or_intror Hin)).
    destruct Hl as [-> | ->]; lia. }
  assert (forall y, In y xs -> is_leading y = true -> limit <= exec_time y - lastCall st)
    as Hxs.
  { intros y Hy Hlead. specialize (IH H1 y Hy Hlead). destruct Hl as [Hl|Hl]; lia. }
  destruct o as [x0|]; [|apply Hxs].
  intros [<-|Hin] Hlead; [|now apply Hxs].
  destruct (Hs st1 x0 eq_refl Hlead) as (-> & _ & ?). lia.
Qed.

(** Along events in time order, leading-edge executions are at least
    [limit] apart. *)
Lemma run_apart limit evs : forall st,
  in_time_order evs ->
  StronglySorted (apart limit) (snd (run limit evs st)).
Proof.
  induction evs as [|ev evs IH]; intros st Hord; simpl; [constructor|].
  apply StronglySorted_inv in Hord as [Hord Hev].
  rewrite List.Forall_forall in Hev.
  pose proof (step_leading limit ev st) as Hs.
  destruct (step limit ev st) as [st1 o].
  specialize (IH st1 Hord).
  pose proof (run_leading_after limit evs st1 Hord) as Hafter.
  destruct (run limit evs st1) as [st2 xs]. simpl in *.
  destruct o as [x0|]; [|exact IH].
  constructor; [exact IH|].
  apply List.Forall_forall. intros y Hy Hx0 Hlead.
  destruct (Hs st1 x0 eq_refl Hx0) as (Ht & Hl & _).
  rewrite Ht, <- Hl. apply Hafter; auto.
  intros ev' Hin. rewrite Hl. now apply Hev.
Qed.

(** At most one of them falls into a window of length [limit]. *)
Lemma apart_window limit t (xs : list (execution A)) :
  StronglySorted (apart limit) xs ->
  (length (leading_in_window t limit xs) <= 1)%nat.
Proof.
  unfold leading_in_window.
  set (f := fun x : execution A =>
              is_leading x && (t <=? exec_time x) && (exec_time x <? t + limit)).
  induction 1 as [|x xs Hxs IH Hx]; simpl; [lia|].
  destruct (f x) eqn:Ex; [|exact IH]. simpl.
  assert (List.filter f xs = []) as ->; [|simpl; lia].
  rewrite List.Forall_forall in Hx.
  destruct (List.filter f xs) as [|y ys] eqn:Ey; [reflexivity|exfalso].
  assert (In y (List.filter f xs)) as Hy by (rewrite Ey; now left).
  apply List.filter_In in Hy as [Hy Hfy].
  unfold f in Ex, Hfy.
  apply andb_true_iff in Ex as [Ex Ex3]. apply andb_true_iff in Ex as [Ex1 Ex2].
  apply andb_true_iff in Hfy as [Hfy Hy3]. apply andb_true_iff in Hfy as [Hy1 Hy2].
  specialize (Hx y Hy Ex1 Hy1). lia.
Qed.

End ThrottleFacts.

Section ThrottleClaims.

Context {A : Type}.
Implicit Types (st : throttled A) (evs : list (event A)).

Lemma suppressed_lastCall limit st st' (ev : event A) :
  lastCall st' = lastCall st -> suppressed limit st ev -> suppressed limit st' ev.
Proof.
  intros Hl (t & a & -> & Hrem). exists t, a. split; [reflexivity|]. now rewrite Hl.
Qed.

(** C3, as the code has it: a call inside the window with no timer pending
    sets a timer for the rest of the window, [limit - (now - lastCall)],
    whose callback holds the arguments of that call. Whatever is called
    inside the window before the timer fires, it runs the function with
    those arguments, then [lastCall] is the time it fired at and no timer
    is pending. *)
Theorem deferred_call_runs_with_its_own_args limit st t (a : A) later tf :
  gate_ok st ->
  timeout st = None ->
  0 < limit - (t - lastCall st) ->
  Forall (suppressed limit st) later ->
  call limit t a st =
    ({| lastCall := lastCall st;
        timeout := Some (next_id st);
        next_id := Pos.succ (next_id st);
        timers := [{| timer_id := next_id st; timer_set := t;
                      timer_delay := limit - (t - lastCall st); timer_args := a |}] |},
     None) /\
  run limit (Call t a :: later ++ [Fire tf (next_id st)]) st =
    ({| lastCall := tf; timeout := None; next_id := Pos.succ (next_id st); timers := [] |},
     [{| exec_edge := Trailing; exec_time := tf; exec_args := a |}]).
Proof.
  intros Hok Hnone Hrem Hlater.
  pose proof (call_scheduled limit t a st Hok Hnone Hrem) as Hcall.
  split; [exact Hcall|].
  cbn [run step]. rewrite Hcall.
  set (tm := {| timer_id := next_id st; timer_set := t;
                timer_delay := limit - (t - lastCall st); timer_args := a |}).
  set (st1 := {| lastCall := lastCall st; timeout := Some (next_id st);
                 next_id := Pos.succ (next_id st); timers := [tm] |}).
  rewrite run_app.
  rewrite (run_suppressed limit st1 (next_id st) later); [|reflexivity|].
  - cbn [fst snd run step app].
    pose proof (fire_pending tf tm st1 eq_refl) as Hfire.
    change (timer_id tm) with (next_id st) in Hfire.
    now rewrite Hfire.
  - eapply List.Forall_impl; [|exact Hlater].
    intros ev. now apply suppressed_lastCall.
Qed.

(** C4: however the throttled function has been called, the host holds at
    most one timer for it, the one that [timeout] names, made by one of
    the calls with the arguments of that call. A call that finds it pending
    sets no timer, and when it fires after calls inside the window it runs
    the function with its own arguments, not with theirs. *)
Theorem one_deferred_call_at_a_time limit evs :
  let st := fst (run limit evs throttle) in
  (length (timers st) <= 1)%nat /\
  (forall tm, In tm (timers st) ->
     timeout st = Some (timer_id tm) /\
     In (Call (timer_set tm) (timer_args tm)) evs) /\
  (forall id t (a : A), timeout st = Some id ->
     next_id (fst (call limit t a st)) = next_id st /\
     forall tm, In tm (timers (fst (call limit t a st))) -> In tm (timers st)) /\
  (forall tm later tf, In tm (timers st) ->
     Forall (suppressed limit st) later ->
     snd (run limit (later ++ [Fire tf (timer_id tm)]) st) =
       [{| exec_edge := Trailing; exec_time := tf; exec_args := timer_args tm |}]).
Proof.
  intros st.
  assert (gate_ok st) as Hok by apply run_ok, throttle_ok.
  assert (forall tm, In tm (timers st) ->
            timers st = [tm] /\ timeout st = Some (timer_id tm)) as Hone.
  { intros tm Hin. unfold gate_ok in Hok.
    destruct (timeout st) as [id|].
    - destruct Hok as (tm' & Ht & <-). rewrite Ht in Hin.
      destruct Hin as [<-|[]]. auto.
    - rewrite Hok in Hin. destruct Hin. }
  split.
  { unfold gate_ok in Hok. destruct (timeout st).
    - destruct Hok as (tm & -> & _). simpl. lia.
    - rewrite Hok. simpl. lia. }
  split.
  { intros tm Hin. split; [now apply Hone|].
    apply (run_timers limit evs throttle [] tm); [intros tm' []|exact Hin]. }
  split.
  { intros id t a Hsome. unfold call. rewrite Hsome.
    destruct (limit - (t - lastCall st) <=? 0); simpl; [|auto].
    split; [reflexivity|].
    unfold clearTimeout, remove_timer. intros tm Hin.
    now apply List.filter_In in Hin as [Hin _]. }
  intros tm later tf Hin Hlater.
  destruct (Hone tm Hin) as [Ht Hsome].
  rewrite run_app, (run_suppressed limit st (timer_id tm) later Hsome Hlater).
  cbn [fst snd run step app]. now rewrite (fire_pending tf tm st Ht).
Qed.

(** C5, as the code has it: along calls and timers in time order, at most
    one leading-edge execution falls into any window of length [limit].
    Two or more calls in one window, the first of which finds the window
    before it passed, run the function once at once, with the arguments of
    the first call; the second call sets a timer that ends with the
    window, and when that timer fires next the function runs once more,
    and that is all. A call that comes once the window has passed runs the
    function at once and clears the timer, which then never runs it. *)
Theorem throttle_leading_and_trailing limit :
  (forall evs st t,
     in_time_order evs ->
     (length (leading_in_window t limit (snd (run limit evs st))) <= 1)%nat) /\
  (forall st t0 (a0 : A) t1 a1 later tf,
     gate_ok st ->
     limit - (t0 - lastCall st) <= 0 ->
     Forall (fun ev => exists t a, ev = Call t a /\ t0 <= t < t0 + limit)
       (Call t1 a1 :: later) ->
     run limit (Call t0 a0 :: Call t1 a1 :: later) st =
       ({| lastCall := t0;
           timeout := Some (next_id st);
           next_id := Pos.succ (next_id st);
           timers := [{| timer_id := next_id st; timer_set := t1;
                         timer_delay := t0 + limit - t1; timer_args := a1 |}] |},
        [{| exec_edge := Leading; exec_time := t0; exec_args := a0 |}]) /\
     run limit (Call t0 a0 :: Call t1 a1 :: later ++ [Fire tf (next_id st)]) st =
       ({| lastCall := tf; timeout := None; next_id := Pos.succ (next_id st); timers := [] |},
        [{| exec_edge := Leading; exec_time := t0; exec_args := a0 |};
         {| exec_edge := Trailing; exec_time := tf; exec_args := a1 |}])) /\
  (forall st t (a : A) tf id,
     gate_ok st ->
     limit - (t - lastCall st) <= 0 ->
     run limit [Call t a; Fire tf id] st =
       ({| lastCall := t; timeout := None; next_id := next_id st; timers := [] |},
        [{| exec_edge := Leading; exec_time := t; exec_args := a |}])).
Proof.
  split.
  { intros evs st t Hord. now apply apart_window, run_apart. }
  split.
  2:{ intros st t a tf id Hok Hrem. cbn [run step].
      rewrite (call_admitted limit t a st Hok Hrem).
      rewrite fire_stale; [reflexivity|]. intros tm []. }
  intros st t0 a0 t1 a1 later tf Hok Hrem Hall.
  apply List.Forall_cons_iff in Hall as [(t & a & [= <- <-] & Ht1) Hlater].
  pose (tm := {| timer_id := next_id st; timer_set := t1;
                 timer_delay := t0 + limit - t1; timer_args := a1 |}).
  pose (st0 := {| lastCall := t0; timeout := None; next_id := next_id st;
                  timers := @nil (timer A) |}).
  pose (st1 := {| lastCall := t0; timeout := Some (next_id st);
                  next_id := Pos.succ (next_id st); timers := [tm] |}).
  assert (call limit t1 a1 st0 = (st1, None)) as Hcall.
  { rewrite (call_scheduled limit t1 a1 st0 eq_refl eq_refl) by (simpl; lia).
    unfold st1, tm. simpl.
    now replace (t0 + limit - t1) with (limit - (t1 - t0)) by lia. }
  assert (run limit later st1 = (st1, [])) as Hsup.
  { apply (run_suppressed limit st1 (next_id st)); [reflexivity|].
    eapply List.Forall_impl; [|exact Hlater].
    intros ev (t & a & -> & Ht). exists t, a. split; [reflexivity|]. simpl. lia. }
  pose proof (fire_pending tf tm st1 eq_refl) as Hfire.
  change (timer_id tm) with (next_id st) in Hfire.
  split.
  - cbn [run step]. rewrite (call_admitted limit t0 a0 st Hok Hrem).
    change (call limit t1 a1 _) with (call limit t1 a1 st0).
    now rewrite Hcall, Hsup.
  - change (Call t0 a0 :: Call t1 a1 :: later ++ [Fire tf (next_id st)])
      with (Call t0 a0 :: Call t1 a1 :: (later ++ [Fire tf (next_id st)])).
    cbn [run step]. rewrite (call_admitted limit t0 a0 st Hok Hrem).
    change (call limit t1 a1 _) with (call limit t1 a1 st0).
    rewrite Hcall, run_app, Hsup. cbn [fst snd run step app].
    now rewrite Hfire.
Qed.

End ThrottleClaims.

Section ThrottleExamples.

Lemma deferred_call_runs_with_its_own_args_witness :
  run 2000 [Call 10100 "b"%string; Call 10200 "c"%string; Fire 12000 1] after_first_call =
    ({| lastCall := 12000; timeout := None; next_id := 2; timers := [] |},
     [{| exec_edge := Trailing; exec_time := 12000; exec_args := "b"%string |}]).
Proof.
  apply (deferred_call_runs_with_its_own_args 2000 after_first_call 10100 "b"%string
           [Call 10200 "c"%string] 12000).
  - reflexivity.
  - reflexivity.
  - reflexivity.
  - constructor; [|constructor].
    exists 10200, "c"%string. split; reflexivity.
Defined.

(** C3, as the spec has it, fails: the last call before the timer fires
    has the arguments ["c"], and the timer runs the function with ["b"],
    the arguments of the call that set it. *)
Lemma deferred_call_ignores_latest_args :
  snd (run 2000 [Call 10000 "a"%string; Call 10100 "b"%string;
                 Call 10200 "c"%string; Fire 12000 1] throttle) =
    [{| exec_edge := Leading; exec_time := 10000; exec_args := "a"%string |};
     {| exec_edge := Trailing; exec_time := 12000; exec_args := "b"%string |}] /\
  "b"%string <> "c"%string.
Proof.
  split; [reflexivity|discriminate].
Qed.

Lemma one_deferred_call_at_a_time_witness :
  snd (run 2000 ([Call 10200 "c"%string; Call 10300 "d"%string] ++ [Fire 12000 1])
         (fst (run 2000 [Call 10000 "a"%string; Call 10100 "b"%string] throttle))) =
    [{| exec_edge := Trailing; exec_time := 12000; exec_args := "b"%string |}].
Proof.
  apply (proj2 (proj2 (proj2
           (one_deferred_call_at_a_time 2000
              [Call 10000 "a"%string; Call 10100 "b"%string])))
           {| timer_id := 1; timer_set := 10100; timer_delay := 1900;
              timer_args := "b"%string |}
           [Call 10200 "c"%string; Call 10300 "d"%string] 12000).
  - left. reflexivity.
  - constructor; [|constructor; [|constructor]].
    + exists 10200, "c"%string. split; reflexivity.
    + exists 10300, "d"%string. split; reflexivity.
Defined.

Lemma throttle_leading_and_trailing_witness :
  (length (leading_in_window 10000 2000
             (snd (run 2000 [Call 10000 "a"%string; Call 10100 "b"%string;
                             Fire 12000 1; Call 12100 "c"%string] throttle))) <= 1)%nat /\
  run 2000 (Call 10000 "a"%string :: Call 10100 "b"%string ::
            [Call 10200 "c"%string] ++ [Fire 12000 1]) throttle =
    ({| lastCall := 12000; timeout := None; next_id := 2; timers := [] |},
     [{| exec_edge := Leading; exec_time := 10000; exec_args := "a"%string |};
      {| exec_edge := Trailing; exec_time := 12000; exec_args := "b"%string |}]).
Proof.
  split.
  - apply (proj1 (throttle_leading_and_trailing (A := string) 2000)).
    repeat constructor; discriminate.
  - apply (proj1 (proj2 (throttle_leading_and_trailing (A := string) 2000))
             throttle 10000 "a"%string 10100 "b"%string [Call 10200 "c"%string] 12000).
    + reflexivity.
    + discriminate.
    + constructor; [|constructor; [|constructor]].
      * exists 10100, "b"%string. repeat split; discriminate.
      * exists 10200, "c"%string. repeat split; discriminate.
Defined.

(** C5, as the spec has it, fails when the timer is late: the call with
    ["b"] came while the leading edge was held back, the call with ["c"]
    comes 50 ms after the window and before the timer has run, and the
    function never runs on the trailing edge, nor with ["b"]. *)
Lemma late_timer_is_cancelled :
  run 2000 [Call 10000 "a"%string; Call 10100 "b"%string;
            Call 12050 "c"%string; Fire 12060 1] throttle =
    ({| lastCall := 12050; timeout := None; next_id := 2; timers := [] |},
     [{| exec_edge := Leading; exec_time := 10000; exec_args := "a"%string |};
      {| exec_edge := Leading; exec_time := 12050; exec_args := "c"%string |}]) /\
  List.filter is_trailing
    (snd (run 2000 [Call 10000 "a"%string; Call 10100 "b"%string;
                    Call 12050 "c"%string; Fire 12060 1] throttle)) = [].
Proof.
  split; reflexivity.
Qed.

End ThrottleExamples.

(** ** The scroll listener *)

Section ScrollListener.



(** [trackScroll()] listens with a threshold of 0.8 and a window of 2000 ms,
    and its first scroll event is let through once the clock is past 2000. *)
Example trackScroll_defaults :
  threshold (trackScroll None None) = 0x1.999999999999ap-1%float /\
  frequency (trackScroll None None) = 2000 /\
  admitted (trackScroll None None)
    (Scroll (page 1700000000000)
       {| scrollY := 0; innerHeight := 700; scrollHeight := 1000 |}) = true.
Proof.
  repeat split.
Qed.

(** Below the threshold, and on a page without height, nothing is written. *)
Example scroll_below_threshold :
  snd (dispatch (trackScroll None None)
         (Scroll (page 1700000000000)
            {| scrollY := 0; innerHeight := 700; scrollHeight := 1000 |})
         (fresh None ∅)) = fresh None ∅ /\
  snd (dispatch (trackScroll None None)
         (Scroll (page 1700000000000)
            {| scrollY := 0; innerHeight := 0; scrollHeight := 0 |})
         (fresh None ∅)) = fresh None ∅.
Proof.
  split; vm_compute; reflexivity.
Qed.

End ScrollListener.

(** * Further properties *)

(** ** Configuration *)

Section Configuration.

Lemma or_string_nonempty a b : b <> [] -> or_string a b <> [].
Proof.
  intros Hb. destruct a as [[|c s]|]; simpl; auto; discriminate.
Qed.

Lemma or_number_nonzero a b : b <> 0%N -> or_number a b <> 0%N.
Proof.
  intros Hb. destruct a as [[|p]|]; simpl; auto; discriminate.
Qed.

Lemma setConfig_configured c t : configured t -> configured (setConfig c t).
Proof.
  intros (Hn & Hv & Hs). repeat split; simpl.
  - now apply or_string_nonempty.
  - now apply or_number_nonzero.
  - now apply or_string_nonempty.
Qed.

Lemma reconfigure_configured cs : forall t, configured t -> configured (reconfigure cs t).
Proof.
  induction cs as [|c cs IH]; intros t Ht; simpl; auto.
  now apply IH, setConfig_configured.
Qed.



(** A configuration applied twice is applied once, and a configuration
    whose fields are missing, empty or 0 changes nothing. *)
Theorem setConfig_merges c t :
  setConfig c (setConfig c t) = setConfig c t /\
  (falsy_string (cfg_dbName c) ->
   falsy_number (cfg_dbVersion c) ->
   falsy_string (cfg_storeName c) ->
   setConfig c t = t).
Proof.
  destruct c as [n v s], t as [tn tv ts td]. unfold setConfig. simpl. split.
  - f_equal.
    + now destruct n as [[|? ?]|].
    + now destruct v as [[|?]|].
    + now destruct s as [[|? ?]|].
  - intros [->| ->] [->| ->] [->| ->]; reflexivity.
Qed.

Lemma setConfig_merges_witness :
  setConfig {| cfg_dbName := Some []; cfg_dbVersion := Some 0%N; cfg_storeName := None |}
    (constructor None) = constructor None.
Proof.
  apply (proj2 (setConfig_merges
                  {| cfg_dbName := Some []; cfg_dbVersion := Some 0%N; cfg_storeName := None |}
                  (constructor None))); [now right|now right|now left].
Defined.

End Configuration.

(** ** Opening the database *)

Section Opening.

Implicit Types (st : system) (t : TrackPagesRead) (dbs : gmap jstring database).




(** The open of a new tracker next to no database of its name. *)
Lemma fresh_open config dbs :
  dbs !! dbName (constructor config) = None ->
  let t := constructor config in
  openDB_ (fresh config dbs) =
    (Ok (dbName t),
     {| this := opened t (Ok (dbName t));
        indexedDB :=
          <[dbName t := {| version := dbVersion t;
                           objectStores := <[storeName t := []]> ∅ |}]> dbs |}).
Proof.
  intros Hnone t.
  assert (configured t) as (_ & Hv & _).
  { apply (reconfigure_configured [] (constructor config)).
    unfold constructor. apply setConfig_configured. repeat split; discriminate. }
  unfold openDB_, fresh. cbn [this indexedDB]. fold t.
  assert (db t = None) as -> by reflexivity.
  unfold openDB. apply N.eqb_neq in Hv. rewrite Hv.
  fold t in Hnone. rewrite Hnone.
  unfold upgrade. now rewrite lookup_empty.
Qed.

(** The first method called on a new origin creates the database, at the
    version of the tracker, with the object store and nothing in it:
    [isRead] answers [null] and leaves that database behind. *)
Theorem first_read_creates_the_database config dbs p e :
  dbs !! dbName (constructor config) = None ->
  let t := constructor config in
  isRead p e (fresh config dbs) =
    (Ok None,
     {| this := opened t (Ok (dbName t));
        indexedDB :=
          <[dbName t := {| version := dbVersion t;
                           objectStores := <[storeName t := []]> ∅ |}]> dbs |}).
Proof.
  intros Hnone t.
  unfold isRead, bind. rewrite (fresh_open config dbs Hnone). fold t.
  unfold get_storeName, db_get, objectStore. cbn [this indexedDB opened storeName].
  rewrite lookup_insert_eq. cbn [objectStores].
  now rewrite lookup_insert_eq.
Qed.

Lemma first_read_creates_the_database_witness :
  objectStore
    (indexedDB (snd (isRead JsNull (page 1) (fresh None ∅))))
    (js "track-pages-read") (js "paths") = Some [].
Proof.
  rewrite (first_read_creates_the_database None ∅ JsNull (page 1)) by reflexivity.
  vm_compute. reflexivity.
Defined.



(** A database that exists at the version of the tracker without its
    object store is never given it, because nothing is upgraded: every
    method is rejected with [NotFoundError] and writes nothing, and so is
    every method after it. *)
Theorem missing_store_is_never_created t dbs x p e :
  db t = None ->
  dbVersion t <> 0%N ->
  dbs !! dbName t = Some x ->
  version x = dbVersion t ->
  objectStores x !! storeName t = None ->
  let st := {| this := t; indexedDB := dbs |} in
  let st1 := {| this := opened t (Ok (dbName t)); indexedDB := dbs |} in
  markAsRead p e st = (Err NotFoundError, st1) /\
  isRead p e st = (Err NotFoundError, st1) /\
  getAll SuspendedStart st = (Err NotFoundError, st1) /\
  markAsRead p e st1 = (Err NotFoundError, st1) /\
  isRead p e st1 = (Err NotFoundError, st1).
Proof.
  intros Hdb Hv Hx Hver Hs st st1.
  assert (openDB_ st = (Ok (dbName t), st1)) as Ho.
  { unfold openDB_, st. simpl this. simpl indexedDB. rewrite Hdb.
    unfold openDB. apply N.eqb_neq in Hv. rewrite Hv, Hx, Hver.
    now rewrite N.compare_refl. }
  assert (openDB_ st1 = (Ok (dbName t), st1)) as Ho1 by now apply openDB__cached.
  assert (objectStore dbs (dbName t) (storeName t) = None) as Hnone.
  { unfold objectStore. now rewrite Hx. }
  repeat split; simpl; unfold isRead, markAsRead, bind;
    rewrite ?Ho, ?Ho1; unfold get_storeName, db_put, db_get, db_readonly_store; simpl;
    now rewrite Hnone.
Qed.

Lemma missing_store_is_never_created_witness :
  let dbs := indexedDB (snd (markAsRead (JsString (js "/a")) (page 1) (fresh None ∅))) in
  let other := Some {| cfg_dbName := None; cfg_dbVersion := None;
                       cfg_storeName := Some (js "custom-store") |} in
  fst (markAsRead (JsString (js "/b")) (page 2) (fresh other dbs)) = Err NotFoundError.
Proof.
  intros dbs other.
  destruct (missing_store_is_never_created (constructor other) dbs
              {| version := 1; objectStores := <[js "paths" := [(js "/a", 1)]]> ∅ |}
              (JsString (js "/b")) (page 2)) as (Hm & _).
  - reflexivity.
  - discriminate.
  - vm_compute. reflexivity.
  - reflexivity.
  - vm_compute. reflexivity.
  - unfold fresh. now rewrite Hm.
Defined.



(** A database newer than the version of the tracker is not opened: every
    method is rejected with [VersionError] and no database changes. *)
Theorem newer_database_is_rejected t dbs x p e :
  db t = None ->
  dbVersion t <> 0%N ->
  dbs !! dbName t = Some x ->
  (dbVersion t < version x)%N ->
  let st := {| this := t; indexedDB := dbs |} in
  let st1 := {| this := opened t (Err VersionError); indexedDB := dbs |} in
  markAsRead p e st = (Err VersionError, st1) /\
  isRead p e st = (Err VersionError, st1) /\
  getAll SuspendedStart st = (Err VersionError, st1).
Proof.
  intros Hdb Hv Hx Hlt st st1.
  assert (openDB_ st = (Err VersionError, st1)) as Ho.
  { unfold openDB_, st. simpl this. simpl indexedDB. rewrite Hdb.
    unfold openDB. apply N.eqb_neq in Hv. rewrite Hv, Hx.
    apply N.compare_lt_iff in Hlt. now rewrite Hlt. }
  repeat split; simpl; unfold isRead, markAsRead, bind; now rewrite Ho.
Qed.

Lemma newer_database_is_rejected_witness :
  let other := Some {| cfg_dbName := None; cfg_dbVersion := Some 2%N; cfg_storeName := None |} in
  let dbs := indexedDB (snd (markAsRead (JsString (js "/a")) (page 1) (fresh other ∅))) in
  fst (isRead (JsString (js "/a")) (page 2) (fresh None dbs)) = Err VersionError.
Proof.
  intros other dbs.
  destruct (newer_database_is_rejected (constructor None) dbs
              {| version := 2; objectStores := <[js "paths" := [(js "/a", 1)]]> ∅ |}
              (JsString (js "/a")) (page 2)) as (_ & Hi & _).
  - reflexivity.
  - discriminate.
  - vm_compute. reflexivity.
  - reflexivity.
  - unfold fresh. now rewrite Hi.
Defined.


End Opening.

(** ** Writes, one after the other *)

Section Writes.

Implicit Types (s : store) (k : jstring) (v : Z) (st : system).

Lemma store_put_put_eq k v1 v2 s :
  store_put k v2 (store_put k v1 s) = store_put k v2 s.
Proof.
  induction s as [|[k0 v0] s IH]; simpl.
  - now rewrite jcompare_refl.
  - destruct (jcompare k k0) eqn:E; simpl.
    + now rewrite jcompare_refl.
    + now rewrite jcompare_refl.
    + now rewrite E, IH.
Qed.

Lemma store_ok_tail k0 v0 s k :
  store_ok ((k0, v0) :: s) -> In k (List.map fst s) -> jlt k0 k.
Proof.
  unfold store_ok. simpl. intros Hs Hin.
  apply StronglySorted_inv in Hs as [_ H0].
  rewrite List.Forall_forall in H0. now apply H0.
Qed.

Lemma store_ok_inv k0 v0 s : store_ok ((k0, v0) :: s) -> store_ok s.
Proof.
  unfold store_ok. simpl. intros Hs. now apply StronglySorted_inv in Hs.
Qed.

(** A key at or below the first key of a store is not among the keys after it. *)
Lemma store_get_tail_None k0 v0 s k :
  store_ok ((k0, v0) :: s) -> jcompare k k0 <> Gt -> store_get k s = None.
Proof.
  intros Hs Hle. apply store_get_None. intros Hin.
  pose proof (store_ok_tail _ _ _ _ Hs Hin) as Hlt. unfold jlt in Hlt.
  destruct (jcompare k k0) eqn:E.
  - apply jcompare_eq in E as ->. now rewrite jcompare_refl in Hlt.
  - pose proof (jlt_trans _ _ _ E Hlt) as Hkk. now apply jlt_irrefl in Hkk.
  - contradiction.
Qed.

(** Two object stores that answer every [get] alike hold the same records. *)
Lemma store_ext s1 : forall s2,
  store_ok s1 -> store_ok s2 ->
  (forall k, store_get k s1 = store_get k s2) -> s1 = s2.
Proof.
  induction s1 as [|[k1 v1] s1 IH]; intros [|[k2 v2] s2] H1 H2 Hget.
  - reflexivity.
  - specialize (Hget k2). simpl in Hget. now rewrite jeqb_refl in Hget.
  - specialize (Hget k1). simpl in Hget. now rewrite jeqb_refl in Hget.
  - destruct (jcompare k1 k2) eqn:E.
    + apply jcompare_eq in E as <-.
      pose proof (Hget k1) as Hk. simpl in Hk. rewrite jeqb_refl in Hk.
      injection Hk as <-. f_equal.
      apply IH; [now apply store_ok_inv in H1|now apply store_ok_inv in H2|].
      intros k. destruct (jeqb k k1) eqn:Ek.
      * apply jeqb_eq in Ek as ->.
        rewrite (store_get_tail_None k1 v1 s1 k1 H1), (store_get_tail_None k1 v1 s2 k1 H2);
          auto; now rewrite jcompare_refl.
      * specialize (Hget k). simpl in Hget. now rewrite Ek in Hget.
    + exfalso. specialize (Hget k1). simpl in Hget. rewrite jeqb_refl in Hget.
      rewrite jeqb_neq in Hget by (intros ->; now rewrite jcompare_refl in E).
      rewrite (store_get_tail_None k2 v2 s2 k1 H2) in Hget; [discriminate|].
      now rewrite E.
    + exfalso. specialize (Hget k2). simpl in Hget. rewrite jeqb_refl in Hget.
      rewrite jeqb_neq in Hget by (intros ->; now rewrite jcompare_refl in E).
      rewrite (store_get_tail_None k1 v1 s1 k2 H1) in Hget; [discriminate|].
      rewrite jcompare_antisym, E. discriminate.
Qed.

Lemma store_put_comm k1 v1 k2 v2 s :
  store_ok s -> k1 <> k2 ->
  store_put k1 v1 (store_put k2 v2 s) = store_put k2 v2 (store_put k1 v1 s).
Proof.
  intros Hs Hne. apply store_ext; try now repeat apply store_put_ok.
  intros k.
  destruct (jeqb k k1) eqn:E1; [apply jeqb_eq in E1 as ->|].
  - rewrite store_get_put_eq, store_get_put_ne by auto. now rewrite store_get_put_eq.
  - assert (k <> k1) as Hk1 by (intros ->; now rewrite jeqb_refl in E1).
    rewrite (store_get_put_ne k1 k) by auto.
    destruct (jeqb k k2) eqn:E2; [apply jeqb_eq in E2 as ->|].
    + now rewrite !store_get_put_eq.
    + assert (k <> k2) as Hk2 by (intros ->; now rewrite jeqb_refl in E2).
      now rewrite !store_get_put_ne by auto.
Qed.

Lemma set_objectStore_twice (dbs : gmap jstring database) d n s1 s2 :
  set_objectStore (set_objectStore dbs d n s1) d n s2 = set_objectStore dbs d n s2.
Proof.
  unfold set_objectStore. destruct (dbs !! d) as [x|] eqn:E.
  - rewrite lookup_insert_eq. simpl. now rewrite !insert_insert_eq.
  - now rewrite E.
Qed.

Lemma with_store_twice st d s1 s2 :
  with_store (with_store st d s1) d s2 = with_store st d s2.
Proof.
  unfold with_store. simpl. now rewrite set_objectStore_twice.
Qed.

(** Two writes to one path leave what the second alone would leave,
    whether they resolve or not. *)
Theorem last_write_wins P e1 e2 st :
  snd (markAsRead (JsString P) e2 (snd (markAsRead (JsString P) e1 st))) =
  snd (markAsRead (JsString P) e2 st).
Proof.
  destruct (openDB_ st) as [[d|err] st1] eqn:Ho.
  - destruct (objectStore (indexedDB st1) d (storeName (this st1))) as [s|] eqn:Hs.
    + assert (ready st d st1 s) as Hr by now split.
      rewrite !(markAsRead_ready _ _ _ _ _ _ Hr). cbn [snd nullish default_null].
      erewrite markAsRead_ready.
      2:{ apply connected_ready, with_store_connected with s.
          now apply ready_connected with st. }
      cbn [snd nullish default_null].
      now rewrite with_store_twice, store_put_put_eq.
    + rewrite !(markAsRead_rejected _ _ _ _ _ Ho Hs). cbn [snd].
      assert (openDB_ st1 = (Ok d, st1)) as Ho1.
      { apply openDB__cached. now apply openDB__this in Ho. }
      now rewrite (markAsRead_rejected _ _ _ _ _ Ho1 Hs).
  - assert (openDB_ st1 = (Err err, st1)) as Ho1.
    { apply openDB__cached. now apply openDB__this in Ho. }
    unfold markAsRead, bind. rewrite Ho. cbn [snd]. now rewrite Ho1.
Qed.

(** Writes to two different paths leave the same system in either order. *)
Theorem writes_to_distinct_paths_commute P Q eP eQ st d st1 s :
  ready st d st1 s ->
  store_ok s ->
  P <> Q ->
  snd (markAsRead (JsString Q) eQ (snd (markAsRead (JsString P) eP st))) =
  snd (markAsRead (JsString P) eP (snd (markAsRead (JsString Q) eQ st))).
Proof.
  intros Hr Hok Hne.
  assert (forall k v, ready (with_store st1 d (store_put k v s)) d
                        (with_store st1 d (store_put k v s)) (store_put k v s)) as Hr'.
  { intros k v. apply connected_ready, with_store_connected with s.
    now apply ready_connected with st. }
  rewrite !(markAsRead_ready _ _ _ _ _ _ Hr). cbn [snd nullish default_null].
  rewrite !(markAsRead_ready _ _ _ _ _ _ (Hr' _ _)). cbn [snd nullish default_null].
  rewrite !with_store_twice. f_equal. now apply store_put_comm.
Qed.

Lemma writes_to_distinct_paths_commute_witness :
  snd (markAsRead (JsString (js "/y")) (page 2)
         (snd (markAsRead (JsString (js "/x")) (page 1) (fresh None ∅)))) =
  snd (markAsRead (JsString (js "/x")) (page 1)
         (snd (markAsRead (JsString (js "/y")) (page 2) (fresh None ∅)))).
Proof.
  apply (writes_to_distinct_paths_commute (js "/x") (js "/y") (page 1) (page 2)
           (fresh None ∅) (js "track-pages-read") (snd (openDB_ (fresh None ∅))) []).
  - split; vm_compute; reflexivity.
  - constructor.
  - discriminate.
Defined.



End Writes.

(** ** Iteration after any writes *)

Section IterationAgain.

Implicit Types (s : store) (k : jstring) (ws : list record).

Lemma store_put_length k v s : (length (store_put k v s) <= S (length s))%nat.
Proof.
  induction s as [|[k0 v0] s IH]; simpl; [lia|].
  destruct (jcompare k k0); simpl; lia.
Qed.

Lemma put_all_length ws : forall s, (length (put_all ws s) <= length ws + length s)%nat.
Proof.
  induction ws as [|[k v] ws IH]; intros s; simpl; [lia|].
  specialize (IH (store_put k v s)). pose proof (store_put_length k v s). lia.
Qed.

(** After writes, a key holds the time of its last write, or what it held. *)
Lemma store_get_put_all k ws : forall s,
  store_get k (put_all ws s) =
    match last_write k ws with
    | Some t => Some t
    | None => store_get k s
    end.
Proof.
  induction ws as [|[k' v] ws IH]; intros s; simpl; [reflexivity|].
  rewrite IH. destruct (last_write k ws); [reflexivity|].
  destruct (jeqb k k') eqn:E.
  - apply jeqb_eq in E as ->. apply store_get_put_eq.
  - apply store_get_put_ne. intros ->. now rewrite jeqb_refl in E.
Qed.

(** After any writes from a new tracker whose database does not exist
    yet, the same path written again or not, [getAll()] yields one entry
    for each path written, with the time of the last write to it, in
    ascending key order, and no more entries than writes. *)
Theorem getAll_yields_the_last_writes config dbs location ws :
  dbs !! dbName (constructor config) = None ->
  exists st' st'' entries,
    mark_all location ws (fresh config dbs) = (Ok tt, st') /\
    for_await getAll (S (length ws)) SuspendedStart st' = (Ok (Some entries), st'') /\
    (forall k t,
       In {| pathname := k; date := mkDate t |} entries <-> last_write k ws = Some t) /\
    StronglySorted jlt (List.map pathname entries) /\
    (length entries <= length ws)%nat.
Proof.
  intros Hnone.
  destruct (fresh_ready config dbs Hnone) as [st1 Hr].
  destruct (mark_all_ready location ws _ _ _ _ Hr) as (st' & st'' & Hm & Hr').
  assert (store_ok (put_all ws [])) as Hok by (apply put_all_ok; constructor).
  pose proof (put_all_length ws []) as Hlen. simpl in Hlen.
  exists st', st'', (List.map entry_of (put_all ws [])).
  split; [exact Hm|].
  split; [apply for_await_getAll with (dbName (constructor config)); auto; lia|].
  split.
  { intros k t. rewrite List.in_map_iff. split.
    - intros ([k' t'] & [= -> ->] & Hin).
      apply store_get_In in Hin; auto. rewrite store_get_put_all in Hin.
      now destruct (last_write k ws).
    - intros Hl. exists (k, t). split; [reflexivity|].
      apply store_get_In; auto. rewrite store_get_put_all. now rewrite Hl. }
  split; [now rewrite map_pathname_entry_of|].
  rewrite length_map. lia.
Qed.

Lemma getAll_yields_the_last_writes_witness :
  exists st' st'',
    mark_all (js "/tests/index.html")
      [(js "/test-page", 100); (js "/other", 150); (js "/test-page", 200)]
      (fresh None ∅) = (Ok tt, st') /\
    for_await getAll 4 SuspendedStart st' =
      (Ok (Some [{| pathname := js "/other"; date := mkDate 150 |};
                 {| pathname := js "/test-page"; date := mkDate 200 |}]), st'').
Proof.
  destruct (getAll_yields_the_last_writes None ∅ (js "/tests/index.html")
              [(js "/test-page", 100); (js "/other", 150); (js "/test-page", 200)])
    as (st' & st'' & entries & Hm & Hf & _).
  - reflexivity.
  - exists st', st''. split; [exact Hm|].
    assert (st' = snd (mark_all (js "/tests/index.html")
                         [(js "/test-page", 100); (js "/other", 150); (js "/test-page", 200)]
                         (fresh None ∅))) as -> by now rewrite Hm.
    simpl length in Hf.
    assert (Ok (Some entries) =
            fst (for_await getAll 4 SuspendedStart
                   (snd (mark_all (js "/tests/index.html")
                           [(js "/test-page", 100); (js "/other", 150);
                            (js "/test-page", 200)] (fresh None ∅))))) as He
      by now rewrite Hf.
    vm_compute in He. injection He as ->. exact Hf.
Defined.






End IterationAgain.

(** ** The throttle, along any events *)

Section ThrottleAgain.

Context {A : Type}.
Implicit Types (st : throttled A) (ev : event A) (evs : list (event A)).

Lemma remove_timer_length id (ts : list (timer A)) :
  (length (remove_timer id ts) <= length ts)%nat.
Proof.
  unfold remove_timer. apply filter_length_le.
Qed.

Lemma remove_timer_found id (ts : list (timer A)) tm :
  List.find (fun tm => Pos.eqb (timer_id tm) id) ts = Some tm ->
  (S (length (remove_timer id ts)) <= length ts)%nat.
Proof.
  unfold remove_timer. induction ts as [|tm0 ts IH]; simpl; [discriminate|].
  destruct (Pos.eqb (timer_id tm0) id) eqn:E; simpl.
  - intros _. pose proof (remove_timer_length id ts) as H. unfold remove_timer in H. lia.
  - intros H. specialize (IH H). lia.
Qed.

Lemma step_count limit ev st :
  (length (match snd (step limit ev st) with Some x => [x] | None => [] end) +
   length (timers (fst (step limit ev st))) <=
   calls [ev] + length (timers st))%nat.
Proof.
  destruct ev as [t a|t id]; unfold calls; simpl.
  - unfold call. destruct (limit - (t - lastCall st) <=? 0); simpl.
    + destruct (timeout st); [|lia].
      pose proof (remove_timer_length p (timers st)). unfold clearTimeout. lia.
    + destruct (timeout st); simpl; [lia|]. rewrite length_app. simpl. lia.
  - unfold fire. destruct (List.find _ (timers st)) as [tm|] eqn:E; simpl; [|lia].
    pose proof (remove_timer_found id (timers st) tm E). lia.
Qed.

(** The function runs at most as often as the throttled function is
    called: every execution is paid for by a call of its own, and so is
    every timer still pending. *)
Theorem executions_at_most_calls limit evs : forall st,
  (length (snd (run limit evs st)) + length (timers (fst (run limit evs st))) <=
   calls evs + length (timers st))%nat.
Proof.
  induction evs as [|ev evs IH]; intros st; simpl; [unfold calls; simpl; lia|].
  pose proof (step_count limit ev st) as Hs.
  destruct (step limit ev st) as [st1 o]. specialize (IH st1).
  destruct (run limit evs st1) as [st2 xs]. simpl in *.
  assert (calls (ev :: evs) = calls [ev] + calls evs)%nat as ->.
  { unfold calls. simpl. destruct ev; simpl; lia. }
  destruct o; simpl in *; lia.
Qed.



Lemma step_keeps_due limit ev st :
  gate_ok st -> due_ok limit st -> due_ok limit (fst (step limit ev st)).
Proof.
  intros Hok Hdue. pose proof (step_ok limit ev st Hok) as Hok1.
  destruct ev as [t a|t id]; simpl in *.
  - destruct (Z.le_gt_cases (limit - (t - lastCall st)) 0) as [Hrem|Hrem].
    + rewrite call_admitted; auto. intros tm [].
    + destruct (timeout st) as [id|] eqn:E.
      * now rewrite (call_ignored _ _ _ _ id).
      * rewrite call_scheduled; auto. intros tm [<-|[]]. simpl. lia.
  - unfold fire in *. destruct (List.find _ (timers st)) as [tm|] eqn:E; [|exact Hdue].
    simpl in *. unfold gate_ok in Hok1. simpl in Hok1. rewrite Hok1. intros tm' [].
Qed.

(** With a punctual host, whatever runs the function runs it at the time
    of its event, at least [limit] after [lastCall], which it moves on. *)
Lemma step_executes limit ev st st1 x :
  gate_ok st -> due_ok limit st ->
  punctual limit [ev] st ->
  step limit ev st = (st1, Some x) ->
  exec_time x = event_time ev /\ lastCall st1 = event_time ev /\
  limit <= event_time ev - lastCall st.
Proof.
  intros Hok Hdue [Hp _]. destruct ev as [t a|t id]; simpl.
  - unfold call. destruct (limit - (t - lastCall st) <=? 0) eqn:E.
    + intros [= <- <-]. simpl. repeat split; lia.
    + destruct (timeout st); intros [= ]; discriminate.
  - unfold fire. destruct (List.find _ (timers st)) as [tm|] eqn:E; [|discriminate].
    intros [= <- <-]. simpl. apply List.find_some in E as [Hin Hid].
    apply Pos.eqb_eq in Hid. specialize (Hp tm Hin Hid). specialize (Hdue tm Hin).
    repeat split; lia.
Qed.

Lemma run_after limit evs : forall st,
  gate_ok st -> due_ok limit st ->
  in_time_order evs -> punctual limit evs st ->
  (forall ev, In ev evs -> lastCall st <= event_time ev) ->
  forall x, In x (snd (run limit evs st)) -> limit <= exec_time x - lastCall st.
Proof.
  induction evs as [|ev evs IH]; intros st Hok Hdue Hord Hp Hlast x; simpl; [tauto|].
  apply StronglySorted_inv in Hord as [Hord Hev].
  rewrite List.Forall_forall in Hev.
  pose proof (step_lastCall limit ev st) as Hl.
  pose proof (step_executes limit ev st) as Hs.
  pose proof (step_ok limit ev st Hok) as Hok1.
  pose proof (step_keeps_due limit ev st Hok Hdue) as Hdue1.
  destruct Hp as [Hp0 Hp].
  destruct (step limit ev st) as [st1 o]. simpl in Hl, Hok1, Hdue1, Hp.
  specialize (IH st1 Hok1 Hdue1 Hord Hp).
  destruct (run limit evs st1) as [st2 xs]. simpl in *.
  assert (lastCall st <= event_time ev) as H0 by (apply Hlast; now left).
  assert (forall ev', In ev' evs -> lastCall st1 <= event_time ev') as H1.
  { intros ev' Hin. specialize (Hev ev' Hin). specialize (Hlast ev' (or_intror Hin)).
    destruct Hl as [-> | ->]; lia. }
  assert (forall y, In y xs -> limit <= exec_time y - lastCall st) as Hxs.
  { intros y Hy. specialize (IH H1 y Hy). destruct Hl as [Hl|Hl]; lia. }
  destruct o as [x0|]; [|apply Hxs].
  intros [<-|Hin]; [|now apply Hxs].
  destruct (Hs st1 x0 Hok Hdue (conj Hp0 I) eq_refl) as (-> & _ & ?). lia.
Qed.

Lemma run_spaced limit evs : forall st,
  gate_ok st -> due_ok limit st ->
  in_time_order evs -> punctual limit evs st ->
  StronglySorted (spaced limit) (snd (run limit evs st)).
Proof.
  induction evs as [|ev evs IH]; intros st Hok Hdue Hord Hp; simpl; [constructor|].
  apply StronglySorted_inv in Hord as [Hord Hev].
  rewrite List.Forall_forall in Hev.
  pose proof (step_executes limit ev st) as Hs.
  pose proof (step_ok limit ev st Hok) as Hok1.
  pose proof (step_keeps_due limit ev st Hok Hdue) as Hdue1.
  destruct Hp as [Hp0 Hp].
  destruct (step limit ev st) as [st1 o]. simpl in Hok1, Hdue1, Hp.
  specialize (IH st1 Hok1 Hdue1 Hord Hp).
  pose proof (run_after limit evs st1 Hok1 Hdue1 Hord Hp) as Hafter.
  destruct (run limit evs st1) as [st2 xs]. simpl in *.
  destruct o as [x0|]; [|exact IH].
  constructor; [exact IH|].
  apply List.Forall_forall. intros y Hy. unfold spaced.
  destruct (Hs st1 x0 Hok Hdue (conj Hp0 I) eq_refl) as (Ht & Hl & _).
  rewrite Ht, <- Hl. apply Hafter; auto.
  intros ev' Hin. rewrite Hl. now apply Hev.
Qed.

(** When the host runs no timer early, the function never runs twice
    within [limit]: along events in time order, any two executions,
    leading or trailing, are at least [limit] apart. *)
Theorem punctual_executions_are_spaced limit evs :
  in_time_order evs ->
  punctual limit evs throttle ->
  StronglySorted (spaced limit) (snd (run limit evs throttle)).
Proof.
  intros Hord Hp. apply run_spaced; auto.
  - apply throttle_ok.
  - intros tm [].
Qed.


End ThrottleAgain.

Section ThrottleAgainExamples.

Lemma punctual_executions_are_spaced_witness :
  StronglySorted (spaced 2000)
    (snd (run 2000 [Call 10000 "a"%string; Call 10100 "b"%string;
                    Fire 12000 1; Call 12100 "c"%string; Fire 14000 2] throttle)).
Proof.
  apply punctual_executions_are_spaced.
  - repeat constructor; discriminate.
  - cbn. repeat split; intros x [<-|[]] _; vm_compute; discriminate.
Defined.



End ThrottleAgainExamples.

(** ** The scroll check on degenerate pages *)

Section DegenerateScroll.

Lemma SFcompare_refl s : s <> S754_nan -> SFcompare s s = Some Eq.
Proof.
  destruct s as [b|b| |b m x]; simpl; intros Hs; try reflexivity.
  - now destruct b.
  - contradiction.
  - rewrite Z.compare_refl.
    change (PosDef.Pos.compare_cont Eq m m) with (Pos.compare m m).
    rewrite Pos.compare_refl. now destruct b.
Qed.

Lemma is_nan_Prim2SF f : PrimFloat.is_nan f = true <-> Prim2SF f = S754_nan.
Proof.
  unfold PrimFloat.is_nan. split.
  - rewrite (FloatAxioms.eqb_spec f f). unfold SFeqb. intros H.
    destruct (Prim2SF f) as [b|b| |b m x] eqn:E; try reflexivity;
      rewrite SFcompare_refl in H by discriminate; discriminate.
  - intros H. rewrite (FloatAxioms.eqb_spec f f), H. reflexivity.
Qed.

Lemma leb_nan_l x y : PrimFloat.is_nan x = true -> (x <=? y)%float = false.
Proof.
  intros H. apply is_nan_Prim2SF in H. rewrite FloatAxioms.leb_spec, H. reflexivity.
Qed.

Lemma leb_nan_r x y : PrimFloat.is_nan y = true -> (x <=? y)%float = false.
Proof.
  intros H. apply is_nan_Prim2SF in H. rewrite FloatAxioms.leb_spec, H.
  unfold SFleb. now destruct (Prim2SF x).
Qed.

Lemma leb_infinity x : PrimFloat.is_nan x = false -> (x <=? infinity)%float = true.
Proof.
  intros H. rewrite FloatAxioms.leb_spec.
  change (Prim2SF infinity) with (S754_infinity false).
  destruct (Prim2SF x) as [b|b| |b m e] eqn:E; unfold SFleb; simpl; try reflexivity.
  - now destruct b.
  - apply is_nan_Prim2SF in E. congruence.
Qed.

(** When the threshold or the scroll fraction is not a number, as on a
    page where [scrollY + innerHeight] and [scrollHeight] are both 0, the
    listener never marks the page, whatever the throttle lets through. *)
Theorem nan_never_marks l ev st :
  PrimFloat.is_nan (threshold l) = true \/
  PrimFloat.is_nan (scrollPct (event_view ev)) = true ->
  snd (dispatch l ev st) = st.
Proof.
  intros Hnan. unfold dispatch.
  destruct (step (frequency l) (gate_event ev) (gate l)) as [g [x|]]; [|reflexivity].
  cbn [snd]. unfold scroll_callback.
  destruct Hnan as [H|H]; [rewrite leb_nan_l|rewrite leb_nan_r]; auto.
Qed.

Lemma nan_never_marks_witness :
  snd (dispatch (trackScroll None None)
         (Scroll (page 1700000000000)
            {| scrollY := 0; innerHeight := 0; scrollHeight := 0 |})
         (fresh None ∅)) = fresh None ∅.
Proof.
  apply nan_never_marks. right. reflexivity.
Defined.

(** When the scroll fraction is infinite, as on a document of height 0
    under a viewport of some height, every check that the throttle lets
    through marks the page, whatever number the threshold is. *)
Theorem infinite_fraction_marks l ev st :
  PrimFloat.is_nan (threshold l) = false ->
  scrollPct (event_view ev) = infinity ->
  admitted l ev = true ->
  snd (dispatch l ev st) = snd (markAsRead JsUndefined (event_env ev) st).
Proof.
  intros Hth Hinf. unfold admitted, dispatch.
  destruct (step (frequency l) (gate_event ev) (gate l)) as [g [x|]]; [|discriminate].
  intros _. cbn [snd]. unfold scroll_callback.
  now rewrite Hinf, leb_infinity.
Qed.

Lemma infinite_fraction_marks_witness :
  objectStore
    (indexedDB
       (snd (dispatch (trackScroll None None)
               (Scroll (page 1700000000000)
                  {| scrollY := 0; innerHeight := 700; scrollHeight := 0 |})
               (fresh None ∅))))
    (js "track-pages-read") (js "paths") =
  Some [(js "/tests/index.html", 1700000000000)].
Proof.
  rewrite (infinite_fraction_marks (trackScroll None None)
             (Scroll (page 1700000000000)
                {| scrollY := 0; innerHeight := 700; scrollHeight := 0 |})
             (fresh None ∅)).
  - vm_compute. reflexivity.
  - reflexivity.
  - reflexivity.
  - reflexivity.
Defined.

End DegenerateScroll.

(** ** The listener and the store *)

Section ListenerStore.

Lemma dispatch_connected l ev st d s :
  connected st d s ->
  snd (dispatch l ev st) = st \/
  snd (dispatch l ev st) =
    with_store st d
      (store_put (location_pathname (event_env ev)) (now (event_env ev)) s).
Proof.
  intros Hc. unfold dispatch.
  destruct (step (frequency l) (gate_event ev) (gate l)) as [g [x|]]; [|now left].
  cbn [snd]. unfold scroll_callback.
  destruct (threshold l <=? scrollPct (event_view ev))%float; [|now left].
  right. now rewrite (markAsRead_ready JsUndefined _ _ _ _ _ (connected_ready _ _ _ Hc)).
Qed.

(** Whatever the page does, a listener on a connected tracker leaves it
    connected and writes only under locations of the page: every key of
    the store holds what it held, or the clock reading of an event whose
    location it is. *)
Theorem listener_writes_only_locations evs : forall l st d s,
  connected st d s ->
  store_ok s ->
  exists s',
    connected (snd (dispatch_all l evs st)) d s' /\
    store_ok s' /\
    forall k,
      store_get k s' = store_get k s \/
      exists ev, In ev evs /\ k = location_pathname (event_env ev) /\
                 store_get k s' = Some (now (event_env ev)).
Proof.
  induction evs as [|ev evs IH]; intros l st d s Hc Hok; cbn [dispatch_all].
  - exists s. split; [exact Hc|]. split; [exact Hok|]. now left.
  - pose proof (dispatch_connected l ev st d s Hc) as Hd.
    destruct (dispatch l ev st) as [l1 st1]. cbn [snd] in Hd.
    set (loc := location_pathname (event_env ev)) in *.
    assert (exists s1, connected st1 d s1 /\ store_ok s1 /\
              forall k, store_get k s1 = store_get k s \/
                        (k = loc /\ store_get k s1 = Some (now (event_env ev))))
      as (s1 & Hc1 & Hok1 & Hget1).
    { destruct Hd as [-> | ->].
      - exists s. split; [exact Hc|]. split; [exact Hok|]. now left.
      - exists (store_put loc (now (event_env ev)) s).
        split; [now apply with_store_connected with s|].
        split; [now apply store_put_ok|].
        intros k. destruct (jeqb k loc) eqn:E.
        + apply jeqb_eq in E as ->. right. split; [reflexivity|apply store_get_put_eq].
        + left. apply store_get_put_ne. intros ->. now rewrite jeqb_refl in E. }
    destruct (IH l1 st1 d s1 Hc1 Hok1) as (s' & Hc' & Hok' & Hget').
    exists s'. split; [exact Hc'|]. split; [exact Hok'|].
    intros k. destruct (Hget' k) as [Hk|(ev' & Hin & Hloc & Hk)].
    + rewrite Hk. destruct (Hget1 k) as [H1|[Hloc H1]]; [now left|].
      right. exists ev. split; [now left|]. now split.
    + right. exists ev'. split; [now right|]. now split.
Qed.

Lemma listener_writes_only_locations_witness :
  let st := snd (markAsRead (JsString (js "/about")) (page 5) (fresh None ∅)) in
  exists s',
    connected
      (snd (dispatch_all (trackScroll None None)
              [Scroll (page 1700000000000)
                 {| scrollY := 300; innerHeight := 700; scrollHeight := 1000 |}]
              st))
      (js "track-pages-read") s' /\
    store_get (js "/about") s' = Some 5.
Proof.
  intros st.
  destruct (listener_writes_only_locations
              [Scroll (page 1700000000000)
                 {| scrollY := 300; innerHeight := 700; scrollHeight := 1000 |}]
              (trackScroll None None) st (js "track-pages-read") [(js "/about", 5)])
    as (s' & Hc & _ & Hget).
  - split; vm_compute; reflexivity.
  - repeat constructor.
  - exists s'. split; [exact Hc|].
    destruct (Hget (js "/about")) as [H|(ev & [<-|[]] & Hloc & _)]; [exact H|].
    discriminate Hloc.
Defined.

End ListenerStore.
